(** * Cutting-stock backend: the job model and the solver, embedded in Rocq

    The development follows [app/solver/data/Job.py] and
    [app/solver/solver.py].  Python integers are [Z]; the two places where
    the code divides integers with [/] go through binary64, modelled with
    the IEEE-754 specification of the Standard Library ([SpecFloat]);
    exceptions are an explicit error monad; the one loop of the solver that
    is not bounded by its data ([while any(...)] in [_group_into_lengths])
    is driven by fuel. *)

From Stdlib Require Import ZArith List String Bool Lia Permutation Sorted.
From Stdlib Require Import Floats.SpecFloat.
Import ListNotations.
Local Open Scope Z_scope.

(** ** The Python run-time the code relies on *)

Module Py.

Inductive exn : Type :=
| ValueError (msg : string)
| OverflowError (msg : string)
| ZeroDivisionError (msg : string)
| AssertionError (msg : string).

Inductive result (A : Type) : Type :=
| Ok (a : A)
| Raise (e : exn).

Arguments Ok {A} a.
Arguments Raise {A} e.

Definition bind {A B : Type} (c : result A) (k : A -> result B) : result B :=
  match c with
  | Ok a => k a
  | Raise e => Raise e
  end.

Fixpoint mapM {A B : Type} (f : A -> result B) (l : list A) : result (list B) :=
  match l with
  | [] => Ok []
  | x :: l' =>
      bind (f x) (fun y => bind (mapM f l') (fun ys => Ok (y :: ys)))
  end.

(** [sum([...])] and [math.prod([...])] over integers. *)
Definition sum (l : list Z) : Z := fold_left Z.add l 0.
Definition prod (l : list Z) : Z := fold_left Z.mul l 1.

(** [sorted(l)] compares with [<] only and is stable.  For an ordering
    that is a strict weak order the stable result is unique, and when [<]
    never holds CPython finds the whole list to be one ascending run and
    leaves it alone; a stable insertion sort agrees with it in both cases,
    which are the two the code uses.  [sorted(l, reverse=True)] reverses
    the list, sorts it, and reverses it back. *)
Section Sorted.
Context {A : Type} (lt : A -> A -> bool).

Fixpoint insert (x : A) (l : list A) : list A :=
  match l with
  | [] => [x]
  | y :: l' => if lt x y then x :: y :: l' else y :: insert x l'
  end.

Definition sorted (l : list A) : list A :=
  fold_left (fun acc x => insert x acc) l [].

Definition sorted_reverse (l : list A) : list A :=
  rev (sorted (rev l)).

End Sorted.

(** [sorted(l, key=k, ...)] compares the keys, here integers. *)
Definition by_key {A : Type} (key : A -> Z) (x y : A) : bool :=
  key x <? key y.

(** [math.factorial] *)
Fixpoint fact (n : nat) : Z :=
  match n with
  | O => 1
  | S k => Z.of_nat n * fact k
  end.

Definition factorial (n : Z) : result Z :=
  if n <? 0
  then Raise (ValueError "factorial() not defined for negative values")
  else Ok (fact (Z.to_nat n)).

(** *** binary64 *)

Definition prec : Z := 53.
Definition emax : Z := 1024.

Definition float_of_int (z : Z) : spec_float :=
  match z with
  | Z0 => S754_zero false
  | Zpos p => S754_finite false p 0
  | Zneg p => S754_finite true p 0
  end.

(** [a / b] on two integers: the correctly rounded quotient, or an
    exception when it does not fit a float. *)
Definition truediv (a b : Z) : result spec_float :=
  if b =? 0 then Raise (ZeroDivisionError "division by zero")
  else
    match SFdiv prec emax (float_of_int a) (float_of_int b) with
    | S754_zero s => Ok (S754_zero s)
    | S754_finite s m e => Ok (S754_finite s m e)
    | S754_infinity _ | S754_nan =>
        Raise (OverflowError "integer division result too large for a float")
    end.

(** [int(x)]: truncation toward zero. *)
Definition int (x : spec_float) : result Z :=
  match x with
  | S754_zero _ => Ok 0
  | S754_finite s m e =>
      let v := if 0 <=? e then Zpos m * 2 ^ e else Zpos m / 2 ^ (- e) in
      Ok (if s then - v else v)
  | S754_infinity _ =>
      Raise (OverflowError "cannot convert float infinity to integer")
  | S754_nan => Raise (ValueError "cannot convert float NaN to integer")
  end.

(** [math.ceil(x)] *)
Definition ceil (x : spec_float) : result Z :=
  match x with
  | S754_zero _ => Ok 0
  | S754_finite s m e =>
      if 0 <=? e then Ok ((if s then - Zpos m else Zpos m) * 2 ^ e)
      else if s then Ok (- (Zpos m / 2 ^ (- e)))
      else Ok ((Zpos m + 2 ^ (- e) - 1) / 2 ^ (- e))
  | S754_infinity _ =>
      Raise (OverflowError "cannot convert float infinity to integer")
  | S754_nan => Raise (ValueError "cannot convert float NaN to integer")
  end.

(** A value of type [float | int]. *)
Inductive number : Type :=
| Int (z : Z)
| Float (x : spec_float).

Definition inf : number := Float (S754_infinity false).

(** [float(z)] for an integer operand of a mixed operation. *)
Definition to_float (z : Z) : result spec_float :=
  match binary_normalize prec emax z 0 false with
  | S754_infinity _ | S754_nan =>
      Raise (OverflowError "int too large to convert to float")
  | x => Ok x
  end.

(** [x * y] *)
Definition mul (x y : number) : result number :=
  match x, y with
  | Int a, Int b => Ok (Int (a * b))
  | Int a, Float g =>
      bind (to_float a) (fun f => Ok (Float (SFmul prec emax f g)))
  | Float f, Int b =>
      bind (to_float b) (fun g => Ok (Float (SFmul prec emax f g)))
  | Float f, Float g => Ok (Float (SFmul prec emax f g))
  end.

(** [x <= t] for an integer [t]: Python compares a float with an integer
    by value, without rounding the integer. *)
Definition le_int (x : number) (t : Z) : bool :=
  match x with
  | Int a => a <=? t
  | Float (S754_zero _) => 0 <=? t
  | Float (S754_finite s m e) =>
      let n := if s then Zneg m else Zpos m in
      if 0 <=? e then n * 2 ^ e <=? t else n <=? t * 2 ^ (- e)
  | Float (S754_infinity s) => s
  | Float S754_nan => false
  end.

End Py.

Import Py.

Notation "x <- c ;; k" := (Py.bind c (fun x => k))
  (at level 61, c at next level, right associativity).

(** ** Sized items ([Job.py]) *)

(** [NS]: "named size", wraps length + name.  The base class also declares
    [quantity: Optional[int] = 0]. *)
Module NS.

Record t : Type := mk {
  quantity : option Z;
  length : Z;
  name : option string
}.

(** [__lt__]: [self.length < self.length] *)
Definition lt (self other : t) : bool := length self <? length self.

End NS.

(** [INS]: "inventory named size"; [quantity] is a positive integer or
    [None] for an unlimited supply. *)
Module INS.

Record t : Type := mk {
  length : Z;
  name : option string;
  quantity : option Z
}.

Definition lt (self other : t) : bool := length self <? length self.

Definition as_base (self : t) : NS.t :=
  NS.mk (Some 0) (length self) (name self).

End INS.

(** [QNS]: "quantity + named size". *)
Module QNS.

Record t : Type := mk {
  length : Z;
  name : option string;
  quantity : Z
}.

Definition lt (self other : t) : bool := length self <? length self.

Definition as_base (self : t) : NS.t :=
  NS.mk (Some 0) (length self) (name self).

End QNS.

(** ** The job ([Job.py]) *)

Record Job : Type := mkJob {
  cut_width : Z;
  stocks : list INS.t;
  required : list QNS.t
}.

(** [iterate_required]: "Yields all lengths times amount, sorted
    descending."  [range(q)] is empty for [q <= 0]. *)
Definition iterate_required (self : Job) : list QNS.t :=
  flat_map (fun target => repeat target (Z.to_nat (QNS.quantity target)))
           (sorted_reverse QNS.lt (required self)).

(** [sum_of_required]: "Calculates the total length of required items." *)
Definition sum_of_required (self : Job) : Z :=
  Py.sum (map (fun target =>
                 (QNS.length target + cut_width self) * QNS.quantity target)
              (required self)).

(** [math.ceil((self.sum_of_required() * 2) / length)] *)
Definition unlimited_units (self : Job) (length : Z) : result Z :=
  x <- truediv (sum_of_required self * 2) length ;; ceil x.

(** [n.quantity if n.quantity else math.ceil(...)]: [None] and [0] are
    both false. *)
Definition units_of (self : Job) (n : INS.t) : result Z :=
  match INS.quantity n with
  | Some q => if q =? 0 then unlimited_units self (INS.length n) else Ok q
  | None => unlimited_units self (INS.length n)
  end.

(** [all(req.length > target.length for req in self.required)] *)
Definition too_short (self : Job) (target : INS.t) : bool :=
  forallb (fun req => QNS.length req >? INS.length target) (required self).

(** The body of the [for target in ...] loop of [iterate_stocks]. *)
Fixpoint iterate_stocks_of (self : Job) (targets : list INS.t)
  : result (list NS.t) :=
  match targets with
  | [] => Ok []
  | target :: rest =>
      if too_short self target then iterate_stocks_of self rest
      else
        iterations <- units_of self target ;;
        units <- iterate_stocks_of self rest ;;
        Ok (repeat (INS.as_base target) (Z.to_nat iterations) ++ units)
  end.

(** [iterate_stocks]: "Yields all lengths times amount (including
    unwrapped infinite stocks); sorted descending."  Every caller consumes
    the generator to its end, so an exception inside it reaches them. *)
Definition iterate_stocks (self : Job) : result (list NS.t) :=
  iterate_stocks_of self (sorted_reverse INS.lt (stocks self)).

(** [n_entries] *)
Definition n_entries (self : Job) : Z :=
  Py.sum (map QNS.quantity (required self)).

(** [n_combinations_required] *)
Definition n_combinations_required (self : Job) : result number :=
  let n_targets := Py.sum (map QNS.quantity (required self)) in
  if n_targets >? 100 then Ok inf
  else
    num <- factorial n_targets ;;
    dens <- mapM (fun n => factorial (QNS.quantity n)) (required self) ;;
    q <- truediv num (Py.prod dens) ;;
    c <- int q ;;
    Ok (Int c).

(** [n_combinations_stocks] *)
Definition n_combinations_stocks (self : Job) : result number :=
  units <- iterate_stocks self ;;
  let n_stocks := Z.of_nat (List.length units) in
  if n_stocks >? 100 then Ok inf
  else
    num <- factorial n_stocks ;;
    dens <- mapM (fun n => k <- units_of self n ;; factorial k)
                 (stocks self) ;;
    q <- truediv num (Py.prod dens) ;;
    c <- int q ;;
    Ok (Int c).

(** [n_combinations]: "Number of possible combinations for job; returns
    infinite if too large." *)
Definition n_combinations (self : Job) : result number :=
  r <- n_combinations_required self ;;
  s <- n_combinations_stocks self ;;
  Py.mul r s.

(** [any(all(target.length > stock.length for stock in self.stocks)
         for target in self.required)] *)
Definition has_overlong_target (self : Job) : bool :=
  existsb (fun target =>
             forallb (fun stock => QNS.length target >? INS.length stock)
                     (stocks self))
          (required self).

(** [assert_valid], the model validator run at the end of construction:
    it returns the job or raises, and a raise leaves no job behind. *)
Definition assert_valid (self : Job) : result Job :=
  if Z.of_nat (List.length (stocks self)) <=? 0
  then Raise (ValueError "Job has no stocks")
  else if Z.of_nat (List.length (required self)) <=? 0
  then Raise (ValueError "Job has no required sizes")
  else if has_overlong_target self
  then Raise (ValueError "Job has target sizes longer than the stock")
  else
    units <- iterate_stocks self ;;
    if sum_of_required self >? Py.sum (map NS.length units)
    then Raise (ValueError "Job has more targets than the stock available")
    else Ok self.

(** ** Results *)

(** Modelled from the spec: [SolverType] of [app/solver/data/Result.py],
    which is not among the sources; the three tags are the ones [solve]
    names (exhaustive-exact, first heuristic, large-input heuristic). *)
Inductive SolverType : Type :=
| bruteforce
| FFD
| gapfill.

(** Modelled from the spec: [ResultEntry] of [app/solver/data/Result.py],
    which is not among the sources: one consumed stock unit, the ordered
    list of cut lengths assigned to it, and the resulting trimming. *)
Record ResultEntry : Type := mkResultEntry {
  stock : NS.t;
  cuts : list Z;
  trimming : Z
}.

(** Modelled from the spec: [Result] of [app/solver/data/Result.py], which
    is not among the sources: the originating job, the strategy tag and
    the layout.  The elapsed wall-clock time is left out. *)
Record Result : Type := mkResult {
  job : Job;
  solver_type : SolverType;
  layout : list ResultEntry
}.

(** Modelled from the spec: [create_result_entry] of
    [app/solver/utils.py], which is not among the sources.  The trimming
    is [stock.length - sum(cut.length + cut_width) + cut_width]: one kerf
    per cut, the last one not consumed. *)
Definition create_result_entry (stock : NS.t) (cuts : list QNS.t)
  (cut_width : Z) : ResultEntry :=
  {| stock := stock;
     cuts := map QNS.length cuts;
     trimming := NS.length stock
                 - Py.sum (map (fun c => QNS.length c + cut_width) cuts)
                 + cut_width |}.

Definition QNS_eq_dec (a b : QNS.t) : {a = b} + {a <> b}.
Proof.
  decide equality; [apply Z.eq_dec | | apply Z.eq_dec].
  decide equality; apply string_dec.
Defined.

Definition NS_eq_dec (a b : NS.t) : {a = b} + {a <> b}.
Proof.
  decide equality; [| apply Z.eq_dec |].
  - decide equality; apply string_dec.
  - decide equality; apply Z.eq_dec.
Defined.

Definition ResultEntry_eq_dec (a b : ResultEntry) : {a = b} + {a <> b}.
Proof.
  decide equality;
    [apply Z.eq_dec | apply (list_eq_dec Z.eq_dec) | apply NS_eq_dec].
Defined.

Definition layout_eq_dec : forall a b : list ResultEntry, {a = b} + {a <> b} :=
  list_eq_dec ResultEntry_eq_dec.

(** ** The dictionary of remaining quantities

    [required = {size: size.quantity for size in sizes}] is keyed by the
    demand items themselves (hashed on length and name, equal when all
    fields are equal) and keeps its keys in insertion order, which the
    stable sort over its keys observes: an association list. *)
Module Dict.

Definition t : Type := list (QNS.t * Z).

(** [d[k] = v]: an existing key keeps its place. *)
Fixpoint set (k : QNS.t) (v : Z) (d : t) : t :=
  match d with
  | [] => [(k, v)]
  | (k', v') :: d' =>
      if QNS_eq_dec k k' then (k', v) :: d' else (k', v') :: set k v d'
  end.

(** [d[k]]; the code only reads keys it took from the dictionary, so the
    default of the empty case is never reached. *)
Fixpoint get (d : t) (k : QNS.t) : Z :=
  match d with
  | [] => 0
  | (k', v') :: d' => if QNS_eq_dec k k' then v' else get d' k
  end.

Definition keys (d : t) : list QNS.t := map fst d.
Definition values (d : t) : list Z := map snd d.

(** [{size: size.quantity for size in sizes}] *)
Definition of_sizes (sizes : list QNS.t) : t :=
  fold_left (fun d size => set size (QNS.quantity size) d) sizes [].

End Dict.

(** ** The greedy packer ([_group_into_lengths]) *)

(** A run that may not come back: [OutOfFuel] stands for a loop that is
    still running when the fuel is spent. *)
Inductive outcome (A : Type) : Type :=
| OutOfFuel
| Returns (a : A).

Arguments OutOfFuel {A}.
Arguments Returns {A} a.

(** The variables of the simulation of one stock unit. *)
Record simulation : Type := mkSimulation {
  cut_sum : Z;
  current_cuts : list QNS.t;
  current_required : Dict.t
}.

(** The variables carried across the [for stock in available] loop;
    [best_trimming = None] is [float('inf')]. *)
Record choice : Type := mkChoice {
  best_stock : option NS.t;
  best_cuts : list QNS.t;
  best_trimming : option Z
}.

(** [x < best] where [best] may be infinite. *)
Definition lt_inf (x : Z) (best : option Z) : bool :=
  match best with
  | None => true
  | Some b => x <? b
  end.

Definition eq_inf (x : Z) (best : option Z) : bool :=
  match best with
  | None => false
  | Some b => x =? b
  end.

Definition nonempty {A : Type} (l : list A) : bool :=
  match l with
  | [] => false
  | _ :: _ => true
  end.

Section Packer.
Variable cut_width : Z.

(** [while current_required[size] > 0 and
          (cut_sum + size.length + cut_width) <= stock.length: ...]
    Each turn takes one unit off [current_required[size]], so the counter
    read at entry bounds the number of turns; [fill] is called with it. *)
Fixpoint fill (turns : nat) (stock : NS.t) (size : QNS.t) (s : simulation)
  : simulation :=
  match turns with
  | O => s
  | S turns' =>
      if (Dict.get (current_required s) size >? 0)
         && (cut_sum s + QNS.length size + cut_width <=? NS.length stock)
      then
        fill turns' stock size
          {| cut_sum := cut_sum s + (QNS.length size + cut_width);
             current_cuts := current_cuts s ++ [size];
             current_required :=
               Dict.set size (Dict.get (current_required s) size - 1)
                        (current_required s) |}
      else s
  end.

(** The body of [for stock in available] up to the inner [for]. *)
Definition simulate (required : Dict.t) (stock : NS.t) : simulation :=
  fold_left
    (fun s size =>
       fill (Z.to_nat (Dict.get (current_required s) size)) stock size s)
    (sorted_reverse (by_key QNS.length) (Dict.keys required))
    {| cut_sum := 0; current_cuts := []; current_required := required |}.

Definition consider (required : Dict.t) (best : choice) (stock : NS.t)
  : choice :=
  let s := simulate required stock in
  let trimming := NS.length stock - cut_sum s + cut_width in
  if nonempty (current_cuts s) && lt_inf trimming (best_trimming best)
  then {| best_stock := Some stock;
          best_cuts := current_cuts s;
          best_trimming := Some trimming |}
  else best.

(** One pass of the [while] body over all of [available]. *)
Definition pass (available : list NS.t) (required : Dict.t) : choice :=
  fold_left (consider required) available
            {| best_stock := None; best_cuts := []; best_trimming := None |}.

(** [for size in best_cuts: required[size] -= 1] *)
Definition commit (required : Dict.t) (cuts : list QNS.t) : Dict.t :=
  fold_left (fun d size => Dict.set size (Dict.get d size - 1) d)
            cuts required.

(** [while any(quantity > 0 for quantity in required.values()): ...] *)
Fixpoint group_loop (fuel : nat) (available : list NS.t)
  (required : Dict.t) (result : list ResultEntry)
  : outcome (Dict.t * list ResultEntry) :=
  match fuel with
  | O => OutOfFuel
  | S fuel' =>
      if existsb (fun quantity => quantity >? 0) (Dict.values required)
      then
        let best := pass available required in
        match best_stock best, best_cuts best with
        | Some stock, _ :: _ =>
            group_loop fuel' available
              (commit required (best_cuts best))
              (result ++ [create_result_entry stock (best_cuts best)
                                              cut_width])
        | _, _ => group_loop fuel' available required result
        end
      else Returns (required, result)
  end.

End Packer.

(** [_group_into_lengths]; the inner [None] is Python's. *)
Definition _group_into_lengths (fuel : nat) (stocks : list NS.t)
  (sizes : list QNS.t) (cut_width : Z)
  : outcome (option (list ResultEntry)) :=
  let available := sorted_reverse (by_key NS.length) stocks in
  let required := Dict.of_sizes sizes in
  match group_loop cut_width fuel available required [] with
  | OutOfFuel => OutOfFuel
  | Returns (required', result) =>
      if forallb (fun quantity => quantity =? 0) (Dict.values required')
      then Returns (Some result)
      else Returns None
  end.

(** ** The search and the dispatcher ([solver.py]) *)

(** The state of a search: [minimal_trimmings] ([None] is
    [float('inf')]) and the set [best_results], kept as the list of its
    distinct members in the order they were added. *)
Record search : Type := mkSearch {
  minimal_trimmings : option Z;
  best_results : list (list ResultEntry)
}.

(** [s.add(x)] *)
Definition set_add (x : list ResultEntry) (s : list (list ResultEntry))
  : list (list ResultEntry) :=
  if in_dec layout_eq_dec x s then s else s ++ [x].

Section Solver.

(** [more_itertools.distinct_permutations], at the two types it is used. *)
Variable distinct_permutations_NS : list NS.t -> list (list NS.t).
Variable distinct_permutations_QNS : list QNS.t -> list (list QNS.t).

(** [sort_entries] and [find_best_solution] of [app/solver/utils.py], and
    the thresholds of [app/settings.py]; none of them is among the
    sources. *)
Variable sort_entries : list ResultEntry -> list ResultEntry.
Variable find_best_solution : list (list ResultEntry) -> list ResultEntry.
Variables bruteforce_max_combinations solver_n_max gapfill_max : Z.

(** The body of the innermost loop of the three strategies. *)
Definition evaluate (fuel : nat) (cut_width : Z) (stock_ordering : list NS.t)
  (st : outcome search) (required_ordering : list QNS.t) : outcome search :=
  match st with
  | OutOfFuel => OutOfFuel
  | Returns s =>
      match _group_into_lengths fuel stock_ordering required_ordering
                                cut_width with
      | OutOfFuel => OutOfFuel
      | Returns None => Returns s
      | Returns (Some result) =>
          let trimmings := Py.sum (map trimming result) in
          if lt_inf trimmings (minimal_trimmings s)
          then Returns {| minimal_trimmings := Some trimmings;
                          best_results := [sort_entries result] |}
          else if eq_inf trimmings (minimal_trimmings s)
          then Returns {| minimal_trimmings := minimal_trimmings s;
                          best_results :=
                            set_add (sort_entries result) (best_results s) |}
          else Returns s
      end
  end.

(** The two nested [for] loops. *)
Definition search_all (fuel : nat) (cut_width : Z)
  (stock_orderings : list (list NS.t))
  (required_orderings : list (list QNS.t)) : outcome search :=
  fold_left
    (fun st stock_ordering =>
       fold_left (evaluate fuel cut_width stock_ordering)
                 required_orderings st)
    stock_orderings
    (Returns {| minimal_trimmings := None; best_results := [] |}).

(** [assert best_results, "No valid solution found"] and the return. *)
Definition conclude (st : outcome search)
  : outcome (result (list ResultEntry)) :=
  match st with
  | OutOfFuel => OutOfFuel
  | Returns s =>
      if nonempty (best_results s)
      then Returns (Ok (find_best_solution (best_results s)))
      else Returns (Raise (AssertionError "No valid solution found"))
  end.

(** [_solve_bruteforce] lists the orderings of the demand first and walks
    the orderings of the stock as they are generated. *)
Definition _solve_bruteforce (fuel : nat) (job : Job)
  : outcome (result (list ResultEntry)) :=
  let required_orderings :=
    distinct_permutations_QNS (iterate_required job) in
  match iterate_stocks job with
  | Raise e => Returns (Raise e)
  | Ok units =>
      conclude (search_all fuel (cut_width job)
                           (distinct_permutations_NS units)
                           required_orderings)
  end.

(** [_solve_FFD] lists the orderings of the stock, then of the demand. *)
Definition _solve_FFD (fuel : nat) (job : Job)
  : outcome (result (list ResultEntry)) :=
  match iterate_stocks job with
  | Raise e => Returns (Raise e)
  | Ok units =>
      let stock_orderings := distinct_permutations_NS units in
      let required_orderings :=
        distinct_permutations_QNS (iterate_required job) in
      conclude (search_all fuel (cut_width job)
                           stock_orderings required_orderings)
  end.

(** [_solve_gapfill] *)
Definition _solve_gapfill (fuel : nat) (job : Job)
  : outcome (result (list ResultEntry)) :=
  match iterate_stocks job with
  | Raise e => Returns (Raise e)
  | Ok units =>
      let stock_orderings := distinct_permutations_NS units in
      let required_orderings :=
        distinct_permutations_QNS (iterate_required job) in
      conclude (search_all fuel (cut_width job)
                           stock_orderings required_orderings)
  end.

(** [Result(job=job, solver_type=solver_type, time_us=..., layout=layout)] *)
Definition package (job : Job) (solver_type : SolverType)
  (run : outcome (result (list ResultEntry))) : outcome (result Result) :=
  match run with
  | OutOfFuel => OutOfFuel
  | Returns (Raise e) => Returns (Raise e)
  | Returns (Ok layout) =>
      Returns (Ok {| job := job; solver_type := solver_type;
                     layout := layout |})
  end.

(** [solve] *)
Definition solve (fuel : nat) (job : Job) : outcome (result Result) :=
  match n_combinations job with
  | Raise e => Returns (Raise e)
  | Ok n_combinations =>
      if le_int n_combinations bruteforce_max_combinations
      then package job bruteforce (_solve_bruteforce fuel job)
      else if n_entries job <=? solver_n_max
      then package job FFD (_solve_FFD fuel job)
      else if n_entries job <=? gapfill_max
      then package job gapfill (_solve_gapfill fuel job)
      else Returns (Raise (OverflowError "Input too large"))
  end.

End Solver.

(** ** Notions of the specification the properties are stated with *)

(** A sequence of lengths in descending order. *)
Definition descending (l : list Z) : Prop :=
  StronglySorted (fun a b => b <= a) l.

(** The cut lengths of a layout, entry after entry. *)
Definition cut_lengths (layout : list ResultEntry) : list Z :=
  flat_map cuts layout.

(** No stock unit is committed more often than the stock ordering holds
    it. *)
Definition each_unit_at_most_once (stocks : list NS.t)
  (layout : list ResultEntry) : Prop :=
  forall unit : NS.t,
    (count_occ NS_eq_dec (map stock layout) unit
     <= count_occ NS_eq_dec stocks unit)%nat.

(** The number of distinct orderings of a sequence:
    [n! / prod(duplicate-group sizes!)]. *)
Definition multiset_permutations {A : Type}
  (eq_dec : forall a b : A, {a = b} + {a <> b}) (l : list A) : Z :=
  fact (List.length l)
  / Py.prod (map (fun x => fact (count_occ eq_dec l x)) (nodup eq_dec l)).

(** The total length of all stock items of a job, the too short ones
    included, each counted with the number of units the job gives it. *)
Definition total_stock_length (self : Job) : result Z :=
  lengths <- mapM (fun n => k <- units_of self n ;; Ok (INS.length n * k))
                  (stocks self) ;;
  Ok (Py.sum lengths).

(** The stock capacity the validator compares the demand with: the total
    length of the units the stock iterator yields. *)
Definition available_capacity (self : Job) : result Z :=
  units <- iterate_stocks self ;; Ok (Py.sum (map NS.length units)).

(** ** Invariants of the packer *)

(** What the cuts placed so far consume. *)
Definition consumed (cut_width : Z) (placed : list QNS.t) : Z :=
  Py.sum (map (fun c => QNS.length c + cut_width) placed).

(** The running length is what the cuts consume, and once a cut is placed
    it does not exceed the stock unit. *)
Definition simulation_fits (cut_width : Z) (stock : NS.t) (s : simulation)
  : Prop :=
  cut_sum s = consumed cut_width (current_cuts s)
  /\ (current_cuts s <> [] -> cut_sum s <= NS.length stock).

Definition choice_fits (cut_width : Z) (best : choice) : Prop :=
  best_cuts best <> [] ->
  forall stock, best_stock best = Some stock ->
                consumed cut_width (best_cuts best) <= NS.length stock.

Definition entry_conserves (cut_width : Z) (entry : ResultEntry) : Prop :=
  trimming entry
  = NS.length (stock entry)
    - Py.sum (map (fun c => c + cut_width) (cuts entry)) + cut_width
  /\ 0 <= trimming entry.

(** What the loop keeps true, for [initial] the dictionary it starts
    from: the entries built so far carry the lengths of the cuts [placed],
    which are keys of the dictionary, and each counter is down by the
    number of times its key was placed. *)
Definition accounts_for (initial required : Dict.t)
  (result : list ResultEntry) (placed : list QNS.t) : Prop :=
  cut_lengths result = map QNS.length placed
  /\ Dict.keys required = Dict.keys initial
  /\ incl placed (Dict.keys initial)
  /\ forall k, Dict.get required k
               = Dict.get initial k
                 - Z.of_nat (count_occ QNS_eq_dec placed k).

(** The demand still to place: the sum of the positive counters. *)
Definition remaining (d : Dict.t) : nat :=
  list_sum (map Z.to_nat (Dict.values d)).

(** Every key that still has demand fits some stock unit. *)
Definition every_demand_fits (cut_width : Z) (available : list NS.t)
  (required : Dict.t) : Prop :=
  forall k, In k (Dict.keys required) -> 0 < Dict.get required k ->
            exists unit, In unit available
                         /\ QNS.length k + cut_width <= NS.length unit.

(** A simulation takes cuts only from positive counters, and has changed
    nothing as long as it has placed no cut. *)
Definition simulation_takes (required : Dict.t) (s : simulation) : Prop :=
  (forall k, Dict.get (current_required s) k <= Dict.get required k)
  /\ (forall k, In k (current_cuts s) -> 0 < Dict.get required k)
  /\ (current_cuts s = [] -> cut_sum s = 0 /\ current_required s = required).

(** What the choice of a pass keeps true: a finite best trimming comes
    with a stock unit and cuts, and the cuts come off positive counters. *)
Definition choice_takes (required : Dict.t) (best : choice) : Prop :=
  (best_trimming best <> None ->
   best_stock best <> None /\ best_cuts best <> [])
  /\ (forall k, In k (best_cuts best) -> 0 < Dict.get required k).

(** ** Further invariants of the packer *)

(** No counter of the dictionary is negative. *)
Definition counters_nonnegative (d : Dict.t) : Prop :=
  forall k, 0 <= Dict.get d k.

(** A simulation keeps exact books: each counter of its copy is the
    counter it started from less the cuts placed for that key. *)
Definition simulation_tracks (required : Dict.t) (s : simulation) : Prop :=
  forall k, Dict.get (current_required s) k
            = Dict.get required k
              - Z.of_nat (count_occ QNS_eq_dec (current_cuts s) k).

(** The cuts chosen by a pass do not exceed the counters. *)
Definition choice_within (required : Dict.t) (best : choice) : Prop :=
  forall k, Z.of_nat (count_occ QNS_eq_dec (best_cuts best) k)
            <= Dict.get required k.

(** What every entry of a layout satisfies: it has a cut, its stock unit
    is one of the units given, its cuts are in descending order of length
    and, charged one kerf each, fit the unit. *)
Definition entry_well_formed (cut_width : Z) (stocks : list NS.t)
  (entry : ResultEntry) : Prop :=
  cuts entry <> []
  /\ In (stock entry) stocks
  /\ descending (cuts entry)
  /\ Py.sum (map (fun c => c + cut_width) (cuts entry))
     <= NS.length (stock entry).

(** What the choice of a pass keeps true of the cuts and the unit. *)
Definition choice_well_formed (cut_width : Z) (available : list NS.t)
  (best : choice) : Prop :=
  (forall unit, best_stock best = Some unit -> In unit available)
  /\ descending (map QNS.length (best_cuts best)).

(** The running length of a simulation is not negative and the key [k]
    has not been cut. *)
Definition simulation_avoids (k : QNS.t) (s : simulation) : Prop :=
  0 <= cut_sum s /\ ~ In k (current_cuts s).

(** ** Notions for the job *)

(** The units a stock item with a stated quantity stands for. *)
Definition stated_units (n : INS.t) : nat :=
  match INS.quantity n with
  | Some q => Z.to_nat q
  | None => 0
  end.

(** The material of the demand without kerf. *)
Definition net_required (self : Job) : Z :=
  Py.sum (map (fun target => QNS.length target * QNS.quantity target)
              (required self)).

(** A count that is the infinite sentinel or a non-negative integer. *)
Definition count_or_inf (x : number) : Prop :=
  x = inf \/ exists c, x = Int c /\ 0 <= c.

(** The sign of a float other than NaN. *)
Definition sign_is (s : bool) (x : spec_float) : Prop :=
  match x with
  | S754_zero s' | S754_infinity s' | S754_finite s' _ _ => s' = s
  | S754_nan => True
  end.

(** ** Notions for the search *)

(** The total trimming of a layout, [sum(lt.trimming for lt in result)]. *)
Definition total_trimming (layout : list ResultEntry) : Z :=
  Py.sum (map trimming layout).

(** A candidate of a search: the layout the packer returns on one of the
    pairs of orderings. *)
Definition candidate (fuel : nat) (cut_width : Z)
  (pairs : list (list NS.t * list QNS.t)) (found : list ResultEntry) : Prop :=
  exists stock_ordering required_ordering,
    In (stock_ordering, required_ordering) pairs
    /\ _group_into_lengths fuel stock_ordering required_ordering cut_width
       = Returns (Some found).

(** What the state of a search holds after the pairs [pairs]: no
    candidate yet and nothing kept, or the least total trimming of the
    candidates and, each once, the sorted candidates that reach it. *)
Definition search_sound (sort_entries : list ResultEntry -> list ResultEntry)
  (fuel : nat) (cut_width : Z) (pairs : list (list NS.t * list QNS.t))
  (s : search) : Prop :=
  NoDup (best_results s)
  /\ match minimal_trimmings s with
     | None =>
         best_results s = []
         /\ forall found, ~ candidate fuel cut_width pairs found
     | Some least =>
         (forall found, candidate fuel cut_width pairs found ->
                        least <= total_trimming found)
         /\ (exists found, candidate fuel cut_width pairs found
                           /\ total_trimming found = least)
         /\ (forall kept,
               In kept (best_results s)
               <-> exists found,
                     candidate fuel cut_width pairs found
                     /\ total_trimming found = least
                     /\ kept = sort_entries found)
     end.

(** ** The request handler ([main.py])

    [post_solve] reads the rows of the request, builds the sized items and
    the job through their pydantic constructors, and solves the job.  The
    rows are taken with the integer fields the constructors expect; what
    the handler prints is left out. *)

(** A row of ["stocks"]: [item['length']] and
    [item.get('quantity', None)]. *)
Record stock_row : Type := mkStockRow {
  stock_row_length : Z;
  stock_row_quantity : option Z
}.

(** A row of ["required"]: [item['length']], [item['quantity']] and
    [item.get('name')]. *)
Record required_row : Type := mkRequiredRow {
  required_row_length : Z;
  required_row_quantity : Z;
  required_row_name : option string
}.

(** [job_data], with the defaults of [job_data.get] filled in. *)
Record job_data : Type := mkJobData {
  data_stocks : list stock_row;
  data_cut_width : Z;
  data_required : list required_row
}.

(** What leaves the handler as an exception: a pydantic validation error
    for a field that breaks its declared constraint, the validation error
    pydantic builds from the [ValueError] of a validator (it carries the
    validator's message), or an exception of [solve]. *)
Inductive raised : Type :=
| FieldError
| ValidatorError (msg : string)
| Exception (e : exn).

(** What the handler returns: the error dictionary of its second check,
    or the solved result. *)
Inductive reply : Type :=
| QuantityError (name : option string) (quantity : Z)
| Solved (r : Result).

(** [INS(length=..., quantity=...)]: [length: PositiveInt],
    [quantity: Optional[PositiveInt]]. *)
Definition INS_init (row : stock_row) : raised + INS.t :=
  if stock_row_length row <=? 0 then inl FieldError
  else
    match stock_row_quantity row with
    | Some q =>
        if q <=? 0 then inl FieldError
        else inr (INS.mk (stock_row_length row) None (Some q))
    | None => inr (INS.mk (stock_row_length row) None None)
    end.

(** [QNS(length=..., quantity=..., name=...)]: [length: PositiveInt],
    [quantity: int]. *)
Definition QNS_init (length quantity : Z) (name : option string)
  : raised + QNS.t :=
  if length <=? 0 then inl FieldError
  else inr (QNS.mk length name quantity).

(** [Job(stocks=..., cut_width=..., required=...)]:
    [cut_width: NonNegativeInt], then the validator [assert_valid]. *)
Definition Job_init (stocks : list INS.t) (cut_width : Z)
  (required : list QNS.t) : raised + Job :=
  if cut_width <? 0 then inl FieldError
  else
    match assert_valid (mkJob cut_width stocks required) with
    | Ok job => inr job
    | Raise (ValueError msg) => inl (ValidatorError msg)
    | Raise (AssertionError msg) => inl (ValidatorError msg)
    | Raise e => inl (Exception e)
    end.

(** [[INS(...) for item in available_lengths]] *)
Fixpoint prepare_stocks (rows : list stock_row) : raised + list INS.t :=
  match rows with
  | [] => inr []
  | row :: rows' =>
      match INS_init row with
      | inl e => inl e
      | inr stock =>
          match prepare_stocks rows' with
          | inl e => inl e
          | inr stocks => inr (stock :: stocks)
          end
      end
  end.

(** The first loop over the rows of ["required"]: a row with a quantity of
    zero or less is passed over, the others are appended. *)
Fixpoint prepare_required (rows : list required_row)
  (required_items : list QNS.t) : raised + list QNS.t :=
  match rows with
  | [] => inr required_items
  | row :: rows' =>
      if required_row_quantity row <=? 0
      then prepare_required rows' required_items
      else
        match QNS_init (required_row_length row) (required_row_quantity row)
                       (required_row_name row) with
        | inl e => inl e
        | inr item => prepare_required rows' (required_items ++ [item])
        end
  end.

(** The second loop, [for req in required_items: if req.quantity <= 0:
    return {"error": ...}]. *)
Fixpoint first_bad_quantity (required_items : list QNS.t) : option QNS.t :=
  match required_items with
  | [] => None
  | req :: rest =>
      if QNS.quantity req <=? 0 then Some req else first_bad_quantity rest
  end.

Section Handler.
Variable distinct_permutations_NS : list NS.t -> list (list NS.t).
Variable distinct_permutations_QNS : list QNS.t -> list (list QNS.t).
Variable sort_entries : list ResultEntry -> list ResultEntry.
Variable find_best_solution : list (list ResultEntry) -> list ResultEntry.
Variables bruteforce_max_combinations solver_n_max gapfill_max : Z.

(** [post_solve] *)
Definition post_solve (fuel : nat) (data : job_data)
  : outcome (raised + reply) :=
  match prepare_stocks (data_stocks data) with
  | inl e => Returns (inl e)
  | inr stocks =>
      match prepare_required (data_required data) [] with
      | inl e => Returns (inl e)
      | inr required_items =>
          match first_bad_quantity required_items with
          | Some req =>
              Returns (inr (QuantityError (QNS.name req) (QNS.quantity req)))
          | None =>
              match Job_init stocks (data_cut_width data) required_items with
              | inl e => Returns (inl e)
              | inr job =>
                  match solve distinct_permutations_NS
                              distinct_permutations_QNS sort_entries
                              find_best_solution bruteforce_max_combinations
                              solver_n_max gapfill_max fuel job with
                  | OutOfFuel => OutOfFuel
                  | Returns (Raise e) => Returns (inl (Exception e))
                  | Returns (Ok solved) => Returns (inr (Solved solved))
                  end
              end
          end
      end
  end.

End Handler.

(** The rows of ["required"] the handler keeps. *)
Definition kept_rows (rows : list required_row) : list required_row :=
  filter (fun row => 0 <? required_row_quantity row) rows.

(** The job the handler hands to [solve], when it gets that far. *)
Definition handler_job (data : job_data) : option Job :=
  match prepare_stocks (data_stocks data),
        prepare_required (data_required data) [] with
  | inr stocks, inr required_items =>
      match first_bad_quantity required_items,
            Job_init stocks (data_cut_width data) required_items with
      | None, inr job => Some job
      | _, _ => None
      end
  | _, _ => None
  end.

(** * Properties *)

(** ** Sums and folds *)

Lemma sum_from (l : list Z) (a : Z) : fold_left Z.add l a = a + Py.sum l.
Proof.
  unfold Py.sum. revert a.
  induction l as [|x l IH]; intros a; simpl; [lia|].
  rewrite (IH (a + x)), (IH x). lia.
Qed.

Lemma sum_cons (x : Z) (l : list Z) : Py.sum (x :: l) = x + Py.sum l.
Proof. unfold Py.sum at 1. simpl. apply sum_from. Qed.

Lemma sum_app (l l' : list Z) : Py.sum (l ++ l') = Py.sum l + Py.sum l'.
Proof.
  induction l as [|x l IH]; simpl; [reflexivity|].
  rewrite !sum_cons, IH. lia.
Qed.

Lemma fold_left_invariant {A B : Type} (P : A -> Prop) (f : A -> B -> A)
  (l : list B) :
  (forall a x, P a -> P (f a x)) -> forall a, P a -> P (fold_left f l a).
Proof.
  intros Hstep. induction l as [|x l IH]; intros a Ha; simpl; auto.
Qed.

Lemma fold_left_invariant_in {A B : Type} (P : A -> Prop) (f : A -> B -> A)
  (l : list B) :
  (forall a x, In x l -> P a -> P (f a x)) ->
  forall a, P a -> P (fold_left f l a).
Proof.
  induction l as [|x l IH]; intros Hstep a Ha; simpl; [exact Ha|].
  apply IH.
  - intros a' x' Hin. apply Hstep. now right.
  - apply Hstep; [now left|exact Ha].
Qed.

(** ** Sorting with the comparison of the sized items *)

Section NeverLess.
Context {A : Type} (lt : A -> A -> bool).
Hypothesis never : forall x y, lt x y = false.

Lemma insert_never_less (x : A) (l : list A) : insert lt x l = l ++ [x].
Proof.
  induction l as [|y l IH]; simpl; [reflexivity|].
  rewrite never. now rewrite IH.
Qed.

Lemma sorted_never_less (l : list A) : sorted lt l = l.
Proof.
  unfold sorted.
  enough (H : forall acc, fold_left (fun acc x => insert lt x acc) l acc
                          = acc ++ l) by apply (H []).
  induction l as [|x l IH]; intros acc; simpl.
  - now rewrite app_nil_r.
  - rewrite IH, insert_never_less, <- app_assoc. reflexivity.
Qed.

Lemma sorted_reverse_never_less (l : list A) : sorted_reverse lt l = l.
Proof.
  unfold sorted_reverse. rewrite sorted_never_less. apply rev_involutive.
Qed.

End NeverLess.

Lemma QNS_lt_never (x y : QNS.t) : QNS.lt x y = false.
Proof. unfold QNS.lt. apply Z.ltb_irrefl. Qed.

Lemma INS_lt_never (x y : INS.t) : INS.lt x y = false.
Proof. unfold INS.lt. apply Z.ltb_irrefl. Qed.

(** The two iterators walk the items in the order the job lists them. *)
Lemma iterate_required_in_job_order (self : Job) :
  iterate_required self
  = flat_map (fun target => repeat target (Z.to_nat (QNS.quantity target)))
             (required self).
Proof.
  unfold iterate_required.
  now rewrite (sorted_reverse_never_less QNS.lt QNS_lt_never).
Qed.

Lemma iterate_stocks_in_job_order (self : Job) :
  iterate_stocks self = iterate_stocks_of self (stocks self).
Proof.
  unfold iterate_stocks.
  now rewrite (sorted_reverse_never_less INS.lt INS_lt_never).
Qed.

(** C5 (the code departs from it): a valid job that lists its demand as
    10, 20 and its stock as 50, 100 has both iterators yield these lengths
    in that same, ascending, order, not in descending order. *)
Theorem iterators_not_descending :
  let job := mkJob 0
               [INS.mk 50 None (Some 1); INS.mk 100 None (Some 1)]
               [QNS.mk 10 None 1; QNS.mk 20 None 1] in
  assert_valid job = Ok job
  /\ map QNS.length (iterate_required job) = [10; 20]
  /\ (units <- iterate_stocks job ;; Ok (map NS.length units))
     = Ok [50; 100]
  /\ ~ descending [10; 20]
  /\ ~ descending [50; 100].
Proof.
  cbv zeta. split; [reflexivity|]. split; [reflexivity|].
  split; [reflexivity|].
  split; intros H; apply StronglySorted_inv in H; destruct H as [_ H];
    inversion H; lia.
Qed.

(** ** The loop of the packer *)

(** More fuel does not change a run that came back. *)
Lemma group_loop_more_fuel (cut_width : Z) (available : list NS.t)
  (fuel extra : nat) :
  forall (required : Dict.t) (result : list ResultEntry)
         (r : Dict.t * list ResultEntry),
    group_loop cut_width fuel available required result = Returns r ->
    group_loop cut_width (fuel + extra) available required result
    = Returns r.
Proof.
  induction fuel as [|fuel IH]; intros required result r; simpl.
  - discriminate.
  - destruct (existsb _ (Dict.values required)); [|trivial].
    destruct (best_stock (pass cut_width available required)) as [stock|];
      [destruct (best_cuts (pass cut_width available required))|];
      apply IH.
Qed.

(** A pass that places no cut leaves the loop where it was: the counters
    are unchanged, some of them is still positive, and the next turn is
    the same turn again. *)
Lemma group_loop_stuck (cut_width : Z) (available : list NS.t)
  (required : Dict.t) :
  existsb (fun quantity => quantity >? 0) (Dict.values required) = true ->
  best_cuts (pass cut_width available required) = [] ->
  forall (fuel : nat) (result : list ResultEntry),
    group_loop cut_width fuel available required result = OutOfFuel.
Proof.
  intros Hpos Hnone fuel.
  induction fuel as [|fuel IH]; intros result; simpl; [reflexivity|].
  rewrite Hpos, Hnone.
  destruct (best_stock (pass cut_width available required)); apply IH.
Qed.

(** C1 (the code departs from it): the job with two stock units of length
    100, one demand of length 100 and kerf 1 passes validation; no stock
    unit takes the cut ([0 + 100 + 1 <= 100] fails), and on this input the
    packer does not return at all, whatever fuel it is given, instead of
    returning "no layout". *)
Theorem packer_never_returns_when_nothing_fits :
  let job := mkJob 1 [INS.mk 100 None (Some 2)] [QNS.mk 100 None 1] in
  assert_valid job = Ok job
  /\ iterate_stocks job
     = Ok [NS.mk (Some 0) 100 None; NS.mk (Some 0) 100 None]
  /\ iterate_required job = [QNS.mk 100 None 1]
  /\ forall fuel : nat,
       _group_into_lengths fuel
         [NS.mk (Some 0) 100 None; NS.mk (Some 0) 100 None]
         [QNS.mk 100 None 1] 1
       = OutOfFuel.
Proof.
  cbv zeta. split; [reflexivity|]. split; [reflexivity|].
  split; [reflexivity|].
  intros fuel. unfold _group_into_lengths.
  rewrite group_loop_stuck; reflexivity.
Qed.

Lemma group_into_lengths_more_fuel (fuel extra : nat) (stocks : list NS.t)
  (sizes : list QNS.t) (cut_width : Z) (r : option (list ResultEntry)) :
  _group_into_lengths fuel stocks sizes cut_width = Returns r ->
  _group_into_lengths (fuel + extra) stocks sizes cut_width = Returns r.
Proof.
  unfold _group_into_lengths.
  destruct (group_loop cut_width fuel _ _ _) as [|[required' result]] eqn:E;
    [discriminate|].
  intros H.
  now rewrite (group_loop_more_fuel _ _ _ extra _ _ _ E).
Qed.

(** C2 (the code departs from it): the job with one stock unit of length
    100, one of length 70 and two demands of length 60 passes validation;
    the packer never takes a committed unit out of [available]: its first
    pass chooses the unit of length 70, so does its second pass over the
    same [available], and the layout commits that single unit twice. *)
Theorem packer_commits_a_stock_unit_twice :
  let job := mkJob 0
               [INS.mk 100 None (Some 1); INS.mk 70 None (Some 1)]
               [QNS.mk 60 None 2] in
  let units := [NS.mk (Some 0) 100 None; NS.mk (Some 0) 70 None] in
  let available := sorted_reverse (by_key NS.length) units in
  let required := Dict.of_sizes (iterate_required job) in
  let first := pass 0 available required in
  let second := pass 0 available (commit required (best_cuts first)) in
  let found := [mkResultEntry (NS.mk (Some 0) 70 None) [60] 10;
                mkResultEntry (NS.mk (Some 0) 70 None) [60] 10] in
  assert_valid job = Ok job
  /\ iterate_stocks job = Ok units
  /\ best_stock first = Some (NS.mk (Some 0) 70 None)
  /\ best_stock second = Some (NS.mk (Some 0) 70 None)
  /\ (forall extra : nat,
        _group_into_lengths (3 + extra) units (iterate_required job) 0
        = Returns (Some found))
  /\ ~ each_unit_at_most_once units found.
Proof.
  cbv zeta. split; [reflexivity|]. split; [reflexivity|].
  split; [reflexivity|]. split; [reflexivity|]. split.
  - intros extra. now apply group_into_lengths_more_fuel.
  - intros H. specialize (H (NS.mk (Some 0) 70 None)).
    vm_compute in H. lia.
Qed.

(** ** The dictionary *)

Lemma get_set_same (d : Dict.t) (k : QNS.t) (v : Z) :
  Dict.get (Dict.set k v d) k = v.
Proof.
  induction d as [|[k' v'] d IH]; simpl.
  - destruct (QNS_eq_dec k k); congruence.
  - destruct (QNS_eq_dec k k') as [E|E]; simpl;
      destruct (QNS_eq_dec k k'); congruence.
Qed.

Lemma get_set_other (d : Dict.t) (k k' : QNS.t) (v : Z) :
  k <> k' -> Dict.get (Dict.set k v d) k' = Dict.get d k'.
Proof.
  intros Hne. induction d as [|[k0 v0] d IH]; simpl.
  - destruct (QNS_eq_dec k' k); congruence.
  - destruct (QNS_eq_dec k k0) as [E|E]; simpl;
      destruct (QNS_eq_dec k' k0); congruence.
Qed.

Lemma get_absent (d : Dict.t) (k : QNS.t) :
  ~ In k (Dict.keys d) -> Dict.get d k = 0.
Proof.
  induction d as [|[k' v'] d IH]; simpl; [reflexivity|].
  intros Hin. destruct (QNS_eq_dec k k') as [E|E].
  - exfalso. apply Hin. left. congruence.
  - apply IH. intros H. apply Hin. now right.
Qed.

Lemma keys_set_present (d : Dict.t) (k : QNS.t) (v : Z) :
  In k (Dict.keys d) -> Dict.keys (Dict.set k v d) = Dict.keys d.
Proof.
  induction d as [|[k' v'] d IH]; simpl; [contradiction|].
  intros Hin. destruct (QNS_eq_dec k k') as [E|E]; simpl; [reflexivity|].
  f_equal. apply IH. destruct Hin as [H|H]; [congruence|exact H].
Qed.

Lemma keys_set_absent (d : Dict.t) (k : QNS.t) (v : Z) :
  ~ In k (Dict.keys d) -> Dict.keys (Dict.set k v d) = Dict.keys d ++ [k].
Proof.
  induction d as [|[k' v'] d IH]; simpl; [reflexivity|].
  intros Hin. destruct (QNS_eq_dec k k') as [E|E]; simpl.
  - exfalso. apply Hin. left. congruence.
  - f_equal. apply IH. intros H. apply Hin. now right.
Qed.

Lemma values_by_get (d : Dict.t) :
  NoDup (Dict.keys d) -> Dict.values d = map (Dict.get d) (Dict.keys d).
Proof.
  induction d as [|[k v] d IH]; simpl; [reflexivity|].
  intros Hnd. inversion Hnd as [|k0 l Hnotin Hnd']; subst.
  destruct (QNS_eq_dec k k); [|congruence].
  f_equal. rewrite (IH Hnd'). apply map_ext_in.
  intros k' Hin. destruct (QNS_eq_dec k' k); [|reflexivity].
  subst k'. contradiction.
Qed.

(** The dictionary built from an ordering has each of its items as a key,
    once, with the quantity the item carries. *)
Lemma of_sizes_spec (sizes : list QNS.t) :
  NoDup (Dict.keys (Dict.of_sizes sizes))
  /\ (forall k, In k (Dict.keys (Dict.of_sizes sizes)) <-> In k sizes)
  /\ (forall k, In k sizes ->
                Dict.get (Dict.of_sizes sizes) k = QNS.quantity k).
Proof.
  unfold Dict.of_sizes.
  enough (H : forall d,
             NoDup (Dict.keys d) ->
             (forall k, In k (Dict.keys d) -> Dict.get d k = QNS.quantity k) ->
             let d' := fold_left
                         (fun d size => Dict.set size (QNS.quantity size) d)
                         sizes d in
             NoDup (Dict.keys d')
             /\ (forall k, In k (Dict.keys d')
                           <-> In k (Dict.keys d) \/ In k sizes)
             /\ (forall k, In k (Dict.keys d') ->
                           Dict.get d' k = QNS.quantity k)).
  { destruct (H [] (NoDup_nil _)) as [Hnd [Hkeys Hget]];
      [intros k []|].
    split; [exact Hnd|]. split.
    - intros k. rewrite Hkeys. simpl. tauto.
    - intros k Hin. apply Hget. apply Hkeys. now right. }
  induction sizes as [|size sizes IH]; intros d Hnd Hget; simpl.
  - split; [exact Hnd|]. split; [tauto|exact Hget].
  - destruct (in_dec QNS_eq_dec size (Dict.keys d)) as [Hin|Hnotin].
    + destruct (IH (Dict.set size (QNS.quantity size) d)) as [H1 [H2 H3]].
      * now rewrite keys_set_present.
      * rewrite keys_set_present by exact Hin. intros k Hk.
        destruct (QNS_eq_dec size k) as [<-|Hne].
        -- apply get_set_same.
        -- rewrite get_set_other by exact Hne. now apply Hget.
      * split; [exact H1|]. split; [|exact H3].
        intros k. rewrite H2, keys_set_present by exact Hin.
        split; [tauto|]. intros [H|[H|H]]; subst; auto.
    + destruct (IH (Dict.set size (QNS.quantity size) d)) as [H1 [H2 H3]].
      * rewrite keys_set_absent by exact Hnotin.
        apply NoDup_app; try assumption.
        -- constructor; [intros []|constructor].
        -- intros x Hx [Hx'|[]]. subst. contradiction.
      * rewrite keys_set_absent by exact Hnotin. intros k Hk.
        destruct (QNS_eq_dec size k) as [<-|Hne].
        -- apply get_set_same.
        -- rewrite get_set_other by exact Hne. apply Hget.
           apply in_app_or in Hk. destruct Hk as [Hk|[Hk|[]]];
             [exact Hk|congruence].
      * split; [exact H1|]. split; [|exact H3].
        intros k. rewrite H2, keys_set_absent by exact Hnotin.
        rewrite in_app_iff. simpl. tauto.
Qed.

(** ** Sorting keeps the elements *)

Lemma insert_permutation {A : Type} (lt : A -> A -> bool) (x : A)
  (l : list A) : Permutation (insert lt x l) (x :: l).
Proof.
  induction l as [|y l IH]; simpl; [reflexivity|].
  destruct (lt x y); [reflexivity|].
  rewrite IH. apply perm_swap.
Qed.

Lemma sorted_permutation {A : Type} (lt : A -> A -> bool) (l : list A) :
  Permutation (sorted lt l) l.
Proof.
  unfold sorted.
  enough (H : forall acc, Permutation
                            (fold_left (fun acc x => insert lt x acc) l acc)
                            (acc ++ l)) by apply (H []).
  induction l as [|x l IH]; intros acc; simpl.
  - now rewrite app_nil_r.
  - rewrite IH, insert_permutation. apply Permutation_middle.
Qed.

Lemma sorted_reverse_permutation {A : Type} (lt : A -> A -> bool)
  (l : list A) : Permutation (sorted_reverse lt l) l.
Proof.
  unfold sorted_reverse.
  rewrite <- Permutation_rev, sorted_permutation. symmetry.
  apply Permutation_rev.
Qed.

(** ** Sorting by an integer key *)

Section ByKey.
Context {A : Type} (key : A -> Z).

Lemma insert_by_key_ascending (x : A) (l : list A) :
  StronglySorted (fun a b => key a <= key b) l ->
  StronglySorted (fun a b => key a <= key b) (insert (by_key key) x l).
Proof.
  induction l as [|y l IH]; simpl; intros Hs.
  - constructor; constructor.
  - apply StronglySorted_inv in Hs. destruct Hs as [Hs Hy].
    unfold by_key at 1. destruct (key x <? key y) eqn:Hlt.
    + apply Z.ltb_lt in Hlt. constructor.
      * now constructor.
      * constructor; [lia|].
        apply Forall_forall. intros z Hz.
        rewrite Forall_forall in Hy. specialize (Hy z Hz). lia.
    + apply Z.ltb_ge in Hlt. constructor; [now apply IH|].
      apply Forall_forall. intros z Hz.
      apply (Permutation_in _ (insert_permutation _ _ _)) in Hz.
      destruct Hz as [<-|Hz]; [exact Hlt|].
      rewrite Forall_forall in Hy. now apply Hy.
Qed.

Lemma sorted_by_key_ascending (l : list A) :
  StronglySorted (fun a b => key a <= key b) (sorted (by_key key) l).
Proof.
  unfold sorted.
  apply (fold_left_invariant
           (StronglySorted (fun a b => key a <= key b))).
  - intros acc x. apply insert_by_key_ascending.
  - constructor.
Qed.

Lemma ascending_snoc (l : list A) (x : A) :
  StronglySorted (fun a b => key b <= key a) l ->
  Forall (fun z => key x <= key z) l ->
  StronglySorted (fun a b => key b <= key a) (l ++ [x]).
Proof.
  induction l as [|y l IH]; simpl; intros Hs Hx.
  - constructor; constructor.
  - apply StronglySorted_inv in Hs. destruct Hs as [Hs Hy].
    inversion Hx as [|y' l' Hxy Hx']; subst.
    constructor; [now apply IH|].
    apply Forall_app. split; [exact Hy|]. constructor; [exact Hxy|constructor].
Qed.

Lemma rev_ascending_descending (l : list A) :
  StronglySorted (fun a b => key a <= key b) l ->
  StronglySorted (fun a b => key b <= key a) (rev l).
Proof.
  induction l as [|x l IH]; simpl; intros Hs; [constructor|].
  apply StronglySorted_inv in Hs. destruct Hs as [Hs Hx].
  apply ascending_snoc; [now apply IH|].
  apply Forall_forall. intros z Hz. apply in_rev in Hz.
  rewrite Forall_forall in Hx. now apply Hx.
Qed.

(** [sorted(l, key=key, reverse=True)] is in descending order of the key. *)
Lemma sorted_reverse_by_key_descending (l : list A) :
  descending (map key (sorted_reverse (by_key key) l)).
Proof.
  unfold descending, sorted_reverse.
  pose proof (rev_ascending_descending _ (sorted_by_key_ascending (rev l)))
    as Hs.
  induction Hs as [|x l' Hs IH Hx]; simpl; constructor; [exact IH|].
  apply Forall_forall. intros z Hz. apply in_map_iff in Hz.
  destruct Hz as [y [<- Hy]]. rewrite Forall_forall in Hx. now apply Hx.
Qed.

End ByKey.

(** ** The cuts of the packer and the counters *)

Section Placement.
Variable cut_width : Z.

(** The inner loop stops because its condition fails, not because the
    bound on its turns is reached. *)
Lemma fill_runs_to_exit (stock : NS.t) (size : QNS.t) (turns : nat) :
  forall s,
    Dict.get (current_required s) size <= Z.of_nat turns ->
    let s' := fill cut_width turns stock size s in
    (Dict.get (current_required s') size >? 0)
    && (cut_sum s' + QNS.length size + cut_width <=? NS.length stock)
    = false.
Proof.
  induction turns as [|turns IH]; intros s Hle; simpl.
  - apply andb_false_intro1. rewrite Z.gtb_ltb. apply Z.ltb_ge.
    simpl in Hle. exact Hle.
  - destruct ((Dict.get (current_required s) size >? 0)
              && (cut_sum s + QNS.length size + cut_width
                  <=? NS.length stock)) eqn:Hcond; [|exact Hcond].
    apply IH. simpl. rewrite get_set_same. lia.
Qed.

(** The cuts of a simulation are keys of the dictionary. *)
Lemma fill_cuts_are_keys (keys : list QNS.t) (stock : NS.t) (size : QNS.t)
  (turns : nat) :
  In size keys ->
  forall s, incl (current_cuts s) keys ->
            incl (current_cuts (fill cut_width turns stock size s)) keys.
Proof.
  intros Hsize. induction turns as [|turns IH]; intros s Hs; simpl;
    [exact Hs|].
  destruct ((Dict.get (current_required s) size >? 0) && _); [|exact Hs].
  apply IH. simpl. apply incl_app; [exact Hs|].
  intros x [<-|[]]. exact Hsize.
Qed.

Lemma simulate_cuts_are_keys (required : Dict.t) (stock : NS.t) :
  incl (current_cuts (simulate cut_width required stock))
       (Dict.keys required).
Proof.
  unfold simulate.
  apply (fold_left_invariant_in
           (fun s => incl (current_cuts s) (Dict.keys required))).
  - intros s size Hin Hs. apply fill_cuts_are_keys; [|exact Hs].
    now apply (Permutation_in _ (sorted_reverse_permutation _ _)) in Hin.
  - simpl. apply incl_nil_l.
Qed.

Lemma pass_cuts_are_keys (available : list NS.t) (required : Dict.t) :
  incl (best_cuts (pass cut_width available required)) (Dict.keys required).
Proof.
  unfold pass.
  apply (fold_left_invariant
           (fun best => incl (best_cuts best) (Dict.keys required))).
  - intros best stock Hbest. unfold consider.
    destruct (nonempty _ && lt_inf _ _); [|exact Hbest].
    simpl. apply simulate_cuts_are_keys.
  - simpl. apply incl_nil_l.
Qed.

(** Committing cuts takes each of them off its counter and keeps the
    keys. *)
Lemma commit_get (placed : list QNS.t) :
  forall (required : Dict.t) (k : QNS.t),
    Dict.get (commit required placed) k
    = Dict.get required k - Z.of_nat (count_occ QNS_eq_dec placed k).
Proof.
  unfold commit.
  induction placed as [|size placed IH]; intros required k; simpl; [lia|].
  rewrite IH. destruct (QNS_eq_dec size k) as [<-|Hne].
  - rewrite get_set_same. lia.
  - rewrite get_set_other by exact Hne. lia.
Qed.

Lemma commit_keys (placed : list QNS.t) :
  forall required : Dict.t,
    incl placed (Dict.keys required) ->
    Dict.keys (commit required placed) = Dict.keys required.
Proof.
  unfold commit.
  induction placed as [|size placed IH]; intros required Hin; simpl;
    [reflexivity|].
  assert (Hsize : In size (Dict.keys required)) by (apply Hin; now left).
  rewrite IH; rewrite keys_set_present by exact Hsize; [reflexivity|].
  intros x Hx. apply Hin. now right.
Qed.

Lemma cut_lengths_app (result result' : list ResultEntry) :
  cut_lengths (result ++ result') = cut_lengths result ++ cut_lengths result'.
Proof. unfold cut_lengths. apply flat_map_app. Qed.

Lemma group_loop_accounts (initial : Dict.t) (available : list NS.t)
  (fuel : nat) :
  forall (required : Dict.t) (result : list ResultEntry)
         (placed : list QNS.t) (required' : Dict.t)
         (result' : list ResultEntry),
    accounts_for initial required result placed ->
    group_loop cut_width fuel available required result
    = Returns (required', result') ->
    exists placed', accounts_for initial required' result' placed'.
Proof.
  induction fuel as [|fuel IH];
    intros required result placed required' result' Hacc; simpl;
    [discriminate|].
  destruct (existsb _ (Dict.values required)).
  - pose proof (pass_cuts_are_keys available required) as Hkeys.
    destruct (best_stock (pass cut_width available required))
      as [stock|]; [|now apply (IH _ _ placed)].
    destruct (best_cuts (pass cut_width available required))
      as [|c chosen] eqn:Hcuts; [now apply (IH _ _ placed)|].
    apply (IH _ _ (placed ++ c :: chosen)).
    destruct Hacc as [Hlen [Hk [Hin Hget]]].
    split; [|split; [|split]].
    + rewrite cut_lengths_app, map_app, Hlen. unfold cut_lengths. simpl.
      now rewrite app_nil_r.
    + rewrite commit_keys; [exact Hk|exact Hkeys].
    + apply incl_app; [exact Hin|]. now rewrite <- Hk.
    + intros k. rewrite commit_get, Hget, count_occ_app. lia.
  - intros H. injection H as <- <-. now exists placed.
Qed.

End Placement.

(** ** Progress of the packer *)

Lemma list_sum_lt {A : Type} (f g : A -> nat) (l : list A) (x : A) :
  (forall k, In k l -> (f k <= g k)%nat) ->
  In x l -> (f x < g x)%nat ->
  (list_sum (map f l) < list_sum (map g l))%nat.
Proof.
  induction l as [|y l IH]; simpl; intros Hle Hin Hlt; [contradiction|].
  assert (Hall : (list_sum (map f l) <= list_sum (map g l))%nat).
  { clear IH Hin. induction l as [|z l IHl]; simpl; [lia|].
    assert (f z <= g z)%nat by (apply Hle; right; now left).
    assert (list_sum (map f l) <= list_sum (map g l))%nat; [|lia].
    apply IHl. intros k [Hk|Hk]; apply Hle; [now left|right; now right]. }
  destruct Hin as [<-|Hin].
  - lia.
  - assert (f y <= g y)%nat by (apply Hle; now left).
    assert (list_sum (map f l) < list_sum (map g l))%nat; [|lia].
    apply IH; trivial. intros k Hk. apply Hle. now right.
Qed.

Lemma remaining_by_keys (d : Dict.t) :
  NoDup (Dict.keys d) ->
  remaining d = list_sum (map (fun k => Z.to_nat (Dict.get d k)) (Dict.keys d)).
Proof.
  intros Hnd. unfold remaining. now rewrite values_by_get, map_map.
Qed.

Lemma some_demand_left (d : Dict.t) :
  NoDup (Dict.keys d) ->
  existsb (fun quantity => quantity >? 0) (Dict.values d) = true ->
  exists k, In k (Dict.keys d) /\ 0 < Dict.get d k.
Proof.
  intros Hnd H. rewrite values_by_get in H by exact Hnd.
  apply existsb_exists in H. destruct H as [v [Hv Hpos]].
  apply in_map_iff in Hv. destruct Hv as [k [<- Hk]].
  exists k. split; [exact Hk|]. rewrite Z.gtb_ltb in Hpos.
  now apply Z.ltb_lt.
Qed.

Section Progress.
Variable cut_width : Z.

Lemma fill_takes (required : Dict.t) (stock : NS.t) (size : QNS.t)
  (turns : nat) :
  forall s, simulation_takes required s ->
            simulation_takes required (fill cut_width turns stock size s).
Proof.
  induction turns as [|turns IH]; intros s Hs; simpl; [exact Hs|].
  destruct (Dict.get (current_required s) size >? 0) eqn:Hpos; simpl;
    [|exact Hs].
  destruct (cut_sum s + QNS.length size + cut_width <=? NS.length stock);
    [|exact Hs].
  apply IH. destruct Hs as [Hle [Hcuts _]].
  rewrite Z.gtb_ltb in Hpos. apply Z.ltb_lt in Hpos.
  split; [|split]; simpl.
  - intros k. destruct (QNS_eq_dec size k) as [<-|Hne].
    + rewrite get_set_same. specialize (Hle size). lia.
    + rewrite get_set_other by exact Hne. apply Hle.
  - intros k Hk. apply in_app_or in Hk. destruct Hk as [Hk|[<-|[]]].
    + now apply Hcuts.
    + specialize (Hle size). lia.
  - intros H. now apply app_eq_nil in H.
Qed.

Lemma fill_keeps_cuts (stock : NS.t) (size : QNS.t) (turns : nat) :
  forall s, current_cuts s <> [] ->
            current_cuts (fill cut_width turns stock size s) <> [].
Proof.
  induction turns as [|turns IH]; intros s Hs; simpl; [exact Hs|].
  destruct ((Dict.get (current_required s) size >? 0) && _); [|exact Hs].
  apply IH. simpl. intros H. now apply app_eq_nil in H.
Qed.

(** On a stock unit that some key with demand fits, the simulation places
    a cut. *)
Lemma fill_places (required : Dict.t) (stock : NS.t) (size : QNS.t) :
  forall s,
    simulation_takes required s ->
    0 < Dict.get required size ->
    QNS.length size + cut_width <= NS.length stock ->
    current_cuts
      (fill cut_width (Z.to_nat (Dict.get (current_required s) size))
            stock size s) <> [].
Proof.
  intros s Hs Hpos Hfit.
  destruct (current_cuts s) as [|c cs] eqn:Hcuts.
  - destruct Hs as [_ [_ Hfresh]]. destruct (Hfresh Hcuts) as [Hsum Hreq].
    rewrite Hreq.
    destruct (Z.to_nat (Dict.get required size)) as [|turns] eqn:Hturns;
      [lia|].
    simpl. rewrite Hreq, Hsum.
    assert (H1 : (Dict.get required size >? 0) = true)
      by (rewrite Z.gtb_ltb; now apply Z.ltb_lt).
    assert (H2 : (0 + QNS.length size + cut_width <=? NS.length stock) = true)
      by (apply Z.leb_le; lia).
    rewrite H1, H2. simpl.
    apply fill_keeps_cuts. simpl. rewrite Hcuts. discriminate.
  - apply fill_keeps_cuts. rewrite Hcuts. discriminate.
Qed.

Lemma simulate_takes (required : Dict.t) (stock : NS.t) :
  simulation_takes required (simulate cut_width required stock).
Proof.
  unfold simulate. apply fold_left_invariant.
  - intros s size Hs. now apply fill_takes.
  - split; [|split]; simpl; [intros k; lia|intros k []|auto].
Qed.

Lemma simulate_places (required : Dict.t) (stock : NS.t) (k : QNS.t) :
  In k (Dict.keys required) ->
  0 < Dict.get required k ->
  QNS.length k + cut_width <= NS.length stock ->
  current_cuts (simulate cut_width required stock) <> [].
Proof.
  intros Hk Hpos Hfit. unfold simulate.
  apply (Permutation_in _ (Permutation_sym
                             (sorted_reverse_permutation
                                (by_key QNS.length) (Dict.keys required))))
    in Hk.
  apply in_split in Hk. destruct Hk as [l1 [l2 ->]].
  rewrite fold_left_app. simpl.
  apply (fold_left_invariant (fun s => current_cuts s <> [])).
  - intros s size Hs. now apply fill_keeps_cuts.
  - apply (fill_places required); trivial.
    apply fold_left_invariant.
    + intros s size Hs. now apply fill_takes.
    + split; [|split]; simpl; [intros k'; lia|intros k' []|auto].
Qed.

Lemma consider_takes (required : Dict.t) (best : choice) (stock : NS.t) :
  choice_takes required best ->
  choice_takes required (consider cut_width required best stock).
Proof.
  intros Hbest. unfold consider.
  destruct (nonempty (current_cuts (simulate cut_width required stock)))
    eqn:Hne; simpl; [|exact Hbest].
  destruct (lt_inf _ (best_trimming best)); [|exact Hbest].
  split; simpl.
  - intros _. split; [discriminate|].
    intros H. rewrite H in Hne. discriminate.
  - apply (simulate_takes required stock).
Qed.

Lemma consider_keeps_choice (required : Dict.t) (best : choice)
  (stock : NS.t) :
  best_stock best <> None /\ best_cuts best <> [] ->
  let best' := consider cut_width required best stock in
  best_stock best' <> None /\ best_cuts best' <> [].
Proof.
  intros Hbest. unfold consider.
  destruct (nonempty (current_cuts (simulate cut_width required stock)))
    eqn:Hne; simpl; [|exact Hbest].
  destruct (lt_inf _ (best_trimming best)); [|exact Hbest].
  simpl. split; [discriminate|]. intros H. rewrite H in Hne. discriminate.
Qed.

Lemma consider_places (required : Dict.t) (best : choice) (stock : NS.t) :
  choice_takes required best ->
  current_cuts (simulate cut_width required stock) <> [] ->
  let best' := consider cut_width required best stock in
  best_stock best' <> None /\ best_cuts best' <> [].
Proof.
  intros [Hbest _] Hne. unfold consider.
  destruct (current_cuts (simulate cut_width required stock))
    as [|c cs] eqn:Hcuts; [congruence|]. simpl.
  destruct (best_trimming best) as [b|] eqn:Hb; simpl.
  - destruct (_ <? b); simpl; [split; discriminate|].
    apply Hbest. discriminate.
  - split; discriminate.
Qed.

Lemma pass_takes (available : list NS.t) (required : Dict.t) :
  choice_takes required (pass cut_width available required).
Proof.
  unfold pass. apply fold_left_invariant.
  - intros best stock. apply consider_takes.
  - split; simpl; [congruence|intros k []].
Qed.

Lemma pass_places (available : list NS.t) (required : Dict.t)
  (stock : NS.t) (k : QNS.t) :
  In stock available ->
  In k (Dict.keys required) ->
  0 < Dict.get required k ->
  QNS.length k + cut_width <= NS.length stock ->
  let best := pass cut_width available required in
  best_stock best <> None /\ best_cuts best <> [].
Proof.
  intros Hstock Hk Hpos Hfit. unfold pass.
  apply in_split in Hstock. destruct Hstock as [l1 [l2 ->]].
  rewrite fold_left_app. simpl.
  apply (fold_left_invariant
           (fun best => best_stock best <> None /\ best_cuts best <> [])).
  - intros best stock' Hbest. now apply consider_keeps_choice.
  - apply consider_places.
    + apply fold_left_invariant.
      * intros best stock'. apply consider_takes.
      * split; simpl; [congruence|intros k' []].
    + now apply (simulate_places required stock k).
Qed.

(** Committing the cuts of a pass leaves less demand. *)
Lemma commit_progress (required : Dict.t) (c : QNS.t) (cuts : list QNS.t) :
  NoDup (Dict.keys required) ->
  incl (c :: cuts) (Dict.keys required) ->
  0 < Dict.get required c ->
  (remaining (commit required (c :: cuts)) < remaining required)%nat.
Proof.
  intros Hnd Hin Hpos.
  rewrite !remaining_by_keys; rewrite ?commit_keys; trivial.
  apply (list_sum_lt _ _ _ c).
  - intros k _. rewrite commit_get. lia.
  - apply Hin. now left.
  - rewrite commit_get. simpl. destruct (QNS_eq_dec c c); [|congruence]. lia.
Qed.

Lemma group_loop_returns (available : list NS.t) (n : nat) :
  forall (required : Dict.t) (result : list ResultEntry),
    NoDup (Dict.keys required) ->
    (remaining required <= n)%nat ->
    every_demand_fits cut_width available required ->
    exists r, group_loop cut_width (S n) available required result
              = Returns r.
Proof.
  induction n as [|n IH]; intros required result Hnd Hrem Hfit;
    cbn [group_loop];
    destruct (existsb _ (Dict.values required)) eqn:Hleft; eauto;
    destruct (some_demand_left _ Hnd Hleft) as [k [Hk Hpos]];
    destruct (Hfit k Hk Hpos) as [unit [Hunit Hle]];
    destruct (pass_places available required unit k Hunit Hk Hpos Hle)
      as [Hstock Hcuts];
    pose proof (pass_cuts_are_keys cut_width available required) as Hkeys;
    destruct (pass_takes available required) as [_ Hpositive];
    destruct (best_stock (pass cut_width available required)) as [stock|];
    try congruence;
    destruct (best_cuts (pass cut_width available required)) as [|c cuts];
    try congruence;
    assert (Hc : 0 < Dict.get required c) by (apply Hpositive; now left);
    pose proof (commit_progress required c cuts Hnd Hkeys Hc) as Hless.
  - lia.
  - apply IH.
    + now rewrite commit_keys.
    + lia.
    + intros k' Hk' Hpos'. rewrite commit_keys in Hk' by exact Hkeys.
      apply Hfit; [exact Hk'|]. rewrite commit_get in Hpos'. lia.
Qed.

End Progress.

(** Where every demand item of the ordering fits, with its kerf, some
    stock unit, the packer returns: a pass places a cut as long as demand
    is left, and the demand left bounds the number of passes. *)
Theorem packer_returns_when_demand_fits (stocks : list NS.t)
  (sizes : list QNS.t) (cut_width : Z) :
  (forall k, In k sizes -> 0 < QNS.quantity k ->
             exists unit, In unit stocks
                          /\ QNS.length k + cut_width <= NS.length unit) ->
  exists r,
    _group_into_lengths (S (remaining (Dict.of_sizes sizes)))
                        stocks sizes cut_width
    = Returns r.
Proof.
  intros Hfit. unfold _group_into_lengths.
  destruct (of_sizes_spec sizes) as [Hnd [Hkeys Hget]].
  destruct (group_loop_returns cut_width
              (sorted_reverse (by_key NS.length) stocks)
              (remaining (Dict.of_sizes sizes))
              (Dict.of_sizes sizes) [] Hnd (le_n _))
    as [[required' result] Hrun].
  - intros k Hk Hpos. apply Hkeys in Hk. rewrite (Hget k Hk) in Hpos.
    destruct (Hfit k Hk Hpos) as [unit [Hunit Hle]].
    exists unit. split; [|exact Hle].
    now apply (Permutation_in _ (Permutation_sym
                                   (sorted_reverse_permutation _ _))).
  - rewrite Hrun. destruct (forallb _ _); eauto.
Qed.

(** A layout the packer returns carries, for every key of the dictionary
    it built, as many cuts as the dictionary held for it at the start. *)
Lemma returned_layout_empties_counters (fuel : nat) (stocks : list NS.t)
  (sizes : list QNS.t) (cut_width : Z) (layout : list ResultEntry) :
  _group_into_lengths fuel stocks sizes cut_width = Returns (Some layout) ->
  exists placed : list QNS.t,
    cut_lengths layout = map QNS.length placed
    /\ forall k, Z.of_nat (count_occ QNS_eq_dec placed k)
                 = Dict.get (Dict.of_sizes sizes) k.
Proof.
  unfold _group_into_lengths. intros Hrun.
  destruct (group_loop cut_width fuel _ _ _) as [|[required' result]] eqn:E;
    [discriminate|].
  destruct (forallb _ (Dict.values required')) eqn:Hzero; [|discriminate].
  injection Hrun as <-.
  destruct (of_sizes_spec sizes) as [Hnd _].
  assert (Hstart : accounts_for (Dict.of_sizes sizes) (Dict.of_sizes sizes)
                                [] []).
  { split; [reflexivity|]. split; [reflexivity|].
    split; [apply incl_nil_l|]. intros k. simpl. lia. }
  destruct (group_loop_accounts cut_width _ _ _ _ _ _ _ _ Hstart E)
    as [placed [Hlen [Hkeys [Hin Hget]]]].
  exists placed. split; [exact Hlen|]. intros k.
  destruct (in_dec QNS_eq_dec k (Dict.keys (Dict.of_sizes sizes)))
    as [Hk|Hk].
  - rewrite values_by_get, Hkeys in Hzero by (now rewrite Hkeys).
    rewrite forallb_forall in Hzero.
    specialize (Hzero (Dict.get required' k) (in_map _ _ _ Hk)).
    apply Z.eqb_eq in Hzero. rewrite Hget in Hzero. lia.
  - rewrite (get_absent _ _ Hk).
    assert (Hnot : ~ In k placed) by (intros H; apply Hk, Hin, H).
    apply (count_occ_not_In QNS_eq_dec) in Hnot. now rewrite Hnot.
Qed.

(** Where every item of the demand ordering occurs in it as often as its
    quantity says, a layout the packer returns places each demand unit
    exactly once. *)
Theorem packer_places_every_unit (fuel : nat) (stocks : list NS.t)
  (sizes : list QNS.t) (cut_width : Z) (layout : list ResultEntry) :
  (forall k, In k sizes ->
             Z.of_nat (count_occ QNS_eq_dec sizes k) = QNS.quantity k) ->
  _group_into_lengths fuel stocks sizes cut_width = Returns (Some layout) ->
  Permutation (cut_lengths layout) (map QNS.length sizes).
Proof.
  intros Hcount Hrun.
  destruct (returned_layout_empties_counters _ _ _ _ _ Hrun)
    as [placed [Hlen Hplaced]].
  rewrite Hlen. apply Permutation_map.
  apply (Permutation_count_occ QNS_eq_dec). intros k.
  destruct (of_sizes_spec sizes) as [_ [Hkeys Hget]].
  apply Nat2Z.inj. rewrite Hplaced.
  destruct (in_dec QNS_eq_dec k sizes) as [Hk|Hk].
  - rewrite (Hget k Hk). symmetry. now apply Hcount.
  - rewrite get_absent by (now rewrite Hkeys).
    apply (count_occ_not_In QNS_eq_dec) in Hk. now rewrite Hk.
Qed.

Lemma count_occ_expansion (units : QNS.t -> nat) (l : list QNS.t)
  (k : QNS.t) :
  NoDup l -> In k l ->
  count_occ QNS_eq_dec (flat_map (fun t => repeat t (units t)) l) k
  = units k.
Proof.
  induction l as [|t l IH]; simpl; [contradiction|].
  intros Hnd Hin. inversion Hnd as [|t' l' Hnotin Hnd']; subst.
  rewrite count_occ_app.
  destruct (QNS_eq_dec t k) as [<-|Hne].
  - rewrite count_occ_repeat_eq by reflexivity.
    assert (H : ~ In t (flat_map (fun t => repeat t (units t)) l)).
    { rewrite in_flat_map. intros [x [Hx Hr]].
      apply repeat_spec in Hr. subst. contradiction. }
    apply (count_occ_not_In QNS_eq_dec) in H. rewrite H. lia.
  - rewrite count_occ_repeat_neq by congruence.
    destruct Hin as [H|H]; [congruence|]. now apply IH.
Qed.

(** X4: for a job whose demand items are pairwise distinct, every layout
    the packer returns on an ordering of the expanded demand has exactly
    the cut lengths of the expanded demand. *)
Theorem distinct_demand_is_placed_exactly (job : Job) (fuel : nat)
  (stocks : list NS.t) (sizes : list QNS.t) (layout : list ResultEntry) :
  NoDup (required job) ->
  Permutation sizes (iterate_required job) ->
  _group_into_lengths fuel stocks sizes (cut_width job)
  = Returns (Some layout) ->
  Permutation (cut_lengths layout)
              (map QNS.length (iterate_required job)).
Proof.
  intros Hnd Hperm Hrun.
  rewrite <- (Permutation_map QNS.length Hperm).
  apply (packer_places_every_unit _ _ _ _ _ ) with (2 := Hrun).
  intros k Hk.
  rewrite (proj1 (Permutation_count_occ QNS_eq_dec _ _) Hperm).
  apply (Permutation_in _ Hperm) in Hk.
  rewrite iterate_required_in_job_order in *.
  apply in_flat_map in Hk. destruct Hk as [t [Ht Hr]].
  pose proof (repeat_spec _ _ _ Hr) as ->.
  rewrite (count_occ_expansion (fun t => Z.to_nat (QNS.quantity t)))
    by assumption.
  destruct (Z.to_nat (QNS.quantity t)) eqn:Hq; [destruct Hr|]. lia.
Qed.

(** The search over the one ordering of the stock and the one ordering
    of the demand of the job that lists the demand item of length 50
    twice. *)
Lemma search_of_repeated_demand (extra : nat) :
  search_all (fun l => l) (2 + extra) 0
             [[NS.mk (Some 0) 100 None]]
             [[QNS.mk 50 None 1; QNS.mk 50 None 1]]
  = Returns {| minimal_trimmings := Some 50;
               best_results :=
                 [[mkResultEntry (NS.mk (Some 0) 100 None) [50] 50]] |}.
Proof.
  unfold search_all, evaluate. cbn [fold_left].
  rewrite (group_into_lengths_more_fuel 2 extra
             [NS.mk (Some 0) 100 None]
             [QNS.mk 50 None 1; QNS.mk 50 None 1] 0
             (Some [mkResultEntry (NS.mk (Some 0) 100 None) [50] 50])
             eq_refl).
  reflexivity.
Qed.

(** C3 (the code departs from it): a job may list the same demand item
    twice; the dictionary of remaining quantities then holds it once, with
    the quantity of one of the two, and the layout the packer returns as
    complete, which is the layout of every successful [solve] on this job,
    carries one cut of length 50 where the job asks for two.  The job has
    one ordering of its stock and one of its demand, and its candidates
    have one entry, so the orderings, the sort of the entries and the
    selection are taken as what they are on such an input. *)
Theorem packer_drops_repeated_demand :
  let job := mkJob 0 [INS.mk 100 None (Some 1)]
               [QNS.mk 50 None 1; QNS.mk 50 None 1] in
  let units := [NS.mk (Some 0) 100 None] in
  let found := [mkResultEntry (NS.mk (Some 0) 100 None) [50] 50] in
  let solve' :=
    solve (fun l => [l]) (fun l => [l]) (fun l => l) (fun s => hd [] s) in
  assert_valid job = Ok job
  /\ iterate_stocks job = Ok units
  /\ map QNS.length (iterate_required job) = [50; 50]
  /\ Dict.of_sizes (iterate_required job) = [(QNS.mk 50 None 1, 1)]
  /\ (forall extra : nat,
        _group_into_lengths (2 + extra) units (iterate_required job) 0
        = Returns (Some found))
  /\ (forall (bruteforce_max_combinations solver_n_max gapfill_max : Z)
             (extra : nat) (r : Result),
        solve' bruteforce_max_combinations solver_n_max gapfill_max
               (2 + extra)%nat job
        = Returns (Ok r) ->
        layout r = found)
  /\ solve' 10 5 5 2%nat job = Returns (Ok (mkResult job bruteforce found))
  /\ cut_lengths found = [50]
  /\ ~ Permutation (cut_lengths found)
                   (map QNS.length (iterate_required job)).
Proof.
  cbv zeta. split; [reflexivity|]. split; [reflexivity|].
  split; [reflexivity|]. split; [reflexivity|].
  split; [|split; [|split; [reflexivity|split; [reflexivity|]]]].
  - intros extra. now apply group_into_lengths_more_fuel.
  - intros bf nmax gmax extra r. unfold solve.
    set (job := mkJob 0 _ _).
    change (n_combinations job) with (Ok (Int 2)). cbv iota.
    unfold _solve_bruteforce, _solve_FFD, _solve_gapfill.
    change (iterate_stocks job) with (Ok [NS.mk (Some 0) 100 None]).
    change (iterate_required job)
      with [QNS.mk 50 None 1; QNS.mk 50 None 1].
    cbv iota zeta. change (cut_width job) with 0.
    rewrite search_of_repeated_demand.
    cbn [conclude best_results nonempty hd package].
    destruct (le_int (Int 2) bf); [intros H; now injection H as <-|].
    destruct (n_entries job <=? nmax); [intros H; now injection H as <-|].
    destruct (n_entries job <=? gmax); [intros H; now injection H as <-|].
    discriminate.
  - intros H. apply Permutation_length in H. discriminate H.
Qed.

(** ** Conservation of material in the packer *)

Section Conservation.
Variable cut_width : Z.
Hypothesis kerf_nonnegative : 0 <= cut_width.

Lemma fill_fits (stock : NS.t) (size : QNS.t) (turns : nat) :
  forall s, simulation_fits cut_width stock s ->
            simulation_fits cut_width stock
                            (fill cut_width turns stock size s).
Proof.
  induction turns as [|turns IH]; intros s Hs; simpl; [exact Hs|].
  destruct (Dict.get (current_required s) size >? 0); simpl; [|exact Hs].
  destruct (cut_sum s + QNS.length size + cut_width <=? NS.length stock)
    eqn:Hguard; [|exact Hs].
  apply IH. destruct Hs as [Hsum _]. split; simpl.
  - unfold consumed in *. rewrite map_app, sum_app, <- Hsum.
    simpl. unfold Py.sum at 1. simpl. reflexivity.
  - intros _. apply Z.leb_le in Hguard. lia.
Qed.

Lemma simulate_fits (required : Dict.t) (stock : NS.t) :
  simulation_fits cut_width stock (simulate cut_width required stock).
Proof.
  unfold simulate. apply fold_left_invariant.
  - intros s size Hs. now apply fill_fits.
  - split; simpl; [reflexivity|congruence].
Qed.

Lemma consider_fits (required : Dict.t) (best : choice) (stock : NS.t) :
  choice_fits cut_width best ->
  choice_fits cut_width (consider cut_width required best stock).
Proof.
  intros Hbest. unfold consider.
  destruct (simulate_fits required stock) as [Hsum Hle].
  destruct (nonempty (current_cuts (simulate cut_width required stock))
            && lt_inf _ (best_trimming best)); [|exact Hbest].
  intros Hne stock' Hstock'. simpl in *.
  injection Hstock' as <-. rewrite <- Hsum. now apply Hle.
Qed.

Lemma pass_fits (available : list NS.t) (required : Dict.t) :
  choice_fits cut_width (pass cut_width available required).
Proof.
  unfold pass. apply fold_left_invariant.
  - intros best stock. apply consider_fits.
  - intros Hne. simpl in Hne. congruence.
Qed.

Lemma create_result_entry_conserves (stock : NS.t) (placed : list QNS.t) :
  consumed cut_width placed <= NS.length stock ->
  entry_conserves cut_width (create_result_entry stock placed cut_width).
Proof.
  intros Hle. unfold entry_conserves, create_result_entry. simpl.
  rewrite map_map. unfold consumed in Hle. split; [reflexivity|lia].
Qed.

Lemma group_loop_conserves (available : list NS.t) (fuel : nat) :
  forall (required : Dict.t) (result : list ResultEntry)
         (required' : Dict.t) (result' : list ResultEntry),
    Forall (entry_conserves cut_width) result ->
    group_loop cut_width fuel available required result
    = Returns (required', result') ->
    Forall (entry_conserves cut_width) result'.
Proof.
  induction fuel as [|fuel IH]; intros required result required' result' Hres;
    simpl; [discriminate|].
  destruct (existsb _ (Dict.values required)).
  - pose proof (pass_fits available required) as Hfit.
    destruct (best_stock (pass cut_width available required))
      as [stock|] eqn:Hstock; [|now apply IH].
    destruct (best_cuts (pass cut_width available required))
      as [|c placed] eqn:Hcuts; [now apply IH|].
    apply IH. apply Forall_app. split; [exact Hres|].
    constructor; [|constructor].
    apply create_result_entry_conserves.
    unfold choice_fits in Hfit. rewrite Hcuts in Hfit.
    apply Hfit; [discriminate|exact Hstock].
  - intros H. injection H as _ <-. exact Hres.
Qed.

End Conservation.

(** C6: with a non-negative kerf, every entry of a layout the packer
    returns has
    [trimming = stock.length - sum(cut.length + cut_width) + cut_width],
    and its trimming is not negative. *)
Theorem layout_entries_conserve_material (fuel : nat) (stocks : list NS.t)
  (sizes : list QNS.t) (cut_width : Z) (layout : list ResultEntry) :
  0 <= cut_width ->
  _group_into_lengths fuel stocks sizes cut_width = Returns (Some layout) ->
  forall entry : ResultEntry,
    In entry layout ->
    trimming entry
    = NS.length (stock entry)
      - Py.sum (map (fun c => c + cut_width) (cuts entry)) + cut_width
    /\ 0 <= trimming entry.
Proof.
  intros Hkerf Hrun. unfold _group_into_lengths in Hrun.
  destruct (group_loop cut_width fuel _ _ _) as [|[required' result]] eqn:E;
    [discriminate|].
  destruct (forallb _ (Dict.values required')); [|discriminate].
  injection Hrun as <-.
  apply Forall_forall.
  apply (group_loop_conserves cut_width Hkerf _ _ _ _ _ _ (Forall_nil _) E).
Qed.

Lemma layout_entries_conserve_material_witness :
  let entry := mkResultEntry (NS.mk (Some 0) 100 None) [30; 30; 30] 6 in
  trimming entry
  = NS.length (stock entry)
    - Py.sum (map (fun c => c + 2) (cuts entry)) + 2
  /\ 0 <= trimming entry.
Proof.
  apply (layout_entries_conserve_material 2
           [NS.mk (Some 0) 100 None; NS.mk (Some 0) 100 None]
           [QNS.mk 30 None 3; QNS.mk 30 None 3; QNS.mk 30 None 3] 2
           [mkResultEntry (NS.mk (Some 0) 100 None) [30; 30; 30] 6]).
  - lia.
  - reflexivity.
  - simpl. left. reflexivity.
Defined.

(** ** Validation of a job *)

Lemma no_items_iff {A : Type} (l : list A) :
  (Z.of_nat (List.length l) <=? 0) = true <-> l = [].
Proof.
  destruct l; simpl; split; intros H; try reflexivity; discriminate.
Qed.

Lemma forallb_exists_false {A : Type} (f : A -> bool) (l : list A) :
  forallb f l = false -> exists x, In x l /\ f x = false.
Proof.
  induction l as [|x l IH]; simpl; [discriminate|].
  destruct (f x) eqn:Hx; simpl.
  - intros H. destruct (IH H) as [y [Hin Hy]]. exists y. auto.
  - intros _. exists x. auto.
Qed.

Lemma has_overlong_target_iff (self : Job) :
  has_overlong_target self = true
  <-> exists target, In target (required self)
                     /\ forall stock, In stock (stocks self) ->
                                      INS.length stock < QNS.length target.
Proof.
  unfold has_overlong_target. rewrite existsb_exists.
  split; intros [target [Hin H]]; exists target; split; trivial.
  - rewrite forallb_forall in H. intros stock Hs.
    specialize (H stock Hs). rewrite Z.gtb_ltb in H. now apply Z.ltb_lt.
  - apply forallb_forall. intros stock Hs.
    rewrite Z.gtb_ltb. apply Z.ltb_lt. now apply H.
Qed.

Lemma too_short_iff (self : Job) (target : INS.t) :
  too_short self target = true
  <-> forall req, In req (required self) ->
                  INS.length target < QNS.length req.
Proof.
  unfold too_short. rewrite forallb_forall.
  split; intros H req Hin; specialize (H req Hin).
  - rewrite Z.gtb_ltb in H. now apply Z.ltb_lt.
  - rewrite Z.gtb_ltb. now apply Z.ltb_lt.
Qed.

(** The exceptions of the expansion of an unlimited stock item are those
    of the division, never a [ValueError]. *)
Lemma unlimited_units_raises (self : Job) (length : Z) (e : exn) :
  unlimited_units self length = Raise e ->
  forall msg, e <> ValueError msg.
Proof.
  unfold unlimited_units, truediv.
  destruct (length =? 0); simpl; [intros H; injection H as <-; discriminate|].
  destruct (SFdiv prec emax _ _) as [s|s| |s m ex]; simpl;
    try (intros H; injection H as <-; discriminate); try discriminate.
  destruct (0 <=? ex); [discriminate|]. destruct s; discriminate.
Qed.

Lemma units_of_raises (self : Job) (n : INS.t) (e : exn) :
  units_of self n = Raise e -> forall msg, e <> ValueError msg.
Proof.
  unfold units_of. destruct (INS.quantity n) as [q|].
  - destruct (q =? 0); [apply unlimited_units_raises|discriminate].
  - apply unlimited_units_raises.
Qed.

Lemma iterate_stocks_of_raises (self : Job) (targets : list INS.t) (e : exn) :
  iterate_stocks_of self targets = Raise e -> forall msg, e <> ValueError msg.
Proof.
  induction targets as [|target rest IH]; simpl; [discriminate|].
  destruct (too_short self target); [exact IH|].
  destruct (units_of self target) as [k|e'] eqn:Hk; simpl.
  - destruct (iterate_stocks_of self rest) as [units|e'']; simpl;
      [discriminate|].
    intros H. injection H as <-. now apply IH.
  - intros H. injection H as <-. now apply (units_of_raises self target).
Qed.

(** Every unit the stock iterator yields is as long as some demand item:
    a stock item shorter than all of them contributes no unit. *)
Lemma iterate_stocks_of_usable (self : Job) (targets : list INS.t) :
  forall units, iterate_stocks_of self targets = Ok units ->
  forall unit, In unit units ->
  exists req, In req (required self) /\ QNS.length req <= NS.length unit.
Proof.
  induction targets as [|target rest IH]; simpl; intros units Hrun unit Hin.
  - injection Hrun as <-. destruct Hin.
  - destruct (too_short self target) eqn:Hshort; [now apply (IH units)|].
    destruct (units_of self target) as [k|]; simpl in Hrun; [|discriminate].
    destruct (iterate_stocks_of self rest) as [units'|]; simpl in Hrun;
      [|discriminate].
    injection Hrun as <-. apply in_app_or in Hin. destruct Hin as [Hin|Hin].
    + apply repeat_spec in Hin. subst unit.
      unfold too_short in Hshort.
      destruct (forallb_exists_false _ _ Hshort) as [req [Hreq Hle]].
      exists req. split; [exact Hreq|].
      simpl. rewrite Z.gtb_ltb in Hle. now apply Z.ltb_ge in Hle.
    + now apply (IH units').
Qed.

(** The outcomes of [assert_valid], check by check. *)
Lemma assert_valid_cases (self : Job) :
  (stocks self = []
   /\ assert_valid self = Raise (ValueError "Job has no stocks"))
  \/ (stocks self <> [] /\ required self = []
      /\ assert_valid self = Raise (ValueError "Job has no required sizes"))
  \/ (stocks self <> [] /\ required self <> []
      /\ has_overlong_target self = true
      /\ assert_valid self
         = Raise (ValueError "Job has target sizes longer than the stock"))
  \/ (stocks self <> [] /\ required self <> []
      /\ has_overlong_target self = false
      /\ exists e, iterate_stocks self = Raise e
                   /\ assert_valid self = Raise e)
  \/ (stocks self <> [] /\ required self <> []
      /\ has_overlong_target self = false
      /\ exists units,
           iterate_stocks self = Ok units
           /\ Py.sum (map NS.length units) < sum_of_required self
           /\ assert_valid self
              = Raise (ValueError
                         "Job has more targets than the stock available"))
  \/ (stocks self <> [] /\ required self <> []
      /\ has_overlong_target self = false
      /\ exists units,
           iterate_stocks self = Ok units
           /\ sum_of_required self <= Py.sum (map NS.length units)
           /\ assert_valid self = Ok self).
Proof.
  unfold assert_valid.
  destruct (Z.of_nat (List.length (stocks self)) <=? 0) eqn:Hs.
  { left. apply no_items_iff in Hs. auto. }
  assert (Hs' : stocks self <> []).
  { intros H. apply no_items_iff in H. congruence. }
  right.
  destruct (Z.of_nat (List.length (required self)) <=? 0) eqn:Hr.
  { left. apply no_items_iff in Hr. auto. }
  assert (Hr' : required self <> []).
  { intros H. apply no_items_iff in H. congruence. }
  right.
  destruct (has_overlong_target self) eqn:Hlong; [left; auto|].
  right.
  destruct (iterate_stocks self) as [units|e]; simpl.
  - right.
    destruct (sum_of_required self >? Py.sum (map NS.length units)) eqn:Hcap;
      rewrite Z.gtb_ltb in Hcap.
    + left. apply Z.ltb_lt in Hcap. repeat split; trivial.
      exists units. auto.
    + right. apply Z.ltb_ge in Hcap. repeat split; trivial.
      exists units. auto.
  - left. repeat split; trivial. exists e. auto.
Qed.

(** Case analysis on the checks of [assert_valid], in their order. *)
Ltac validation_cases self Hs Hr Ho Hi Hc Hv e units :=
  destruct (assert_valid_cases self)
    as [[Hs Hv]|[[Hs [Hr Hv]]|[[Hs [Hr [Ho Hv]]]|[[Hs [Hr [Ho [e [Hi Hv]]]]]
       |[[Hs [Hr [Ho [units [Hi [Hc Hv]]]]]]
        |[Hs [Hr [Ho [units [Hi [Hc Hv]]]]]]]]]]].

(** C4: the validator raises a validation error exactly when the job has
    no stocks, has no required items, has a demand item longer than every
    stock item, or asks for more material than the available stock
    capacity; a raise leaves no job, and a job that comes back is the one
    given and meets none of the four conditions. *)
Theorem job_construction_fails_iff (self : Job) :
  ((exists msg, assert_valid self = Raise (ValueError msg))
   <-> (stocks self = []
        \/ required self = []
        \/ (exists target,
              In target (required self)
              /\ forall stock, In stock (stocks self) ->
                               INS.length stock < QNS.length target)
        \/ (exists capacity,
              available_capacity self = Ok capacity
              /\ capacity < sum_of_required self)))
  /\ (forall e, assert_valid self = Raise e ->
                forall job', assert_valid self <> Ok job')
  /\ (forall job',
        assert_valid self = Ok job' ->
        job' = self
        /\ stocks self <> []
        /\ required self <> []
        /\ ~ (exists target,
                In target (required self)
                /\ forall stock, In stock (stocks self) ->
                                 INS.length stock < QNS.length target)
        /\ (exists capacity,
              available_capacity self = Ok capacity
              /\ sum_of_required self <= capacity)).
Proof.
  unfold available_capacity.
  pose proof (has_overlong_target_iff self) as Hlong.
  validation_cases self Hs Hr Ho Hi Hc Hv e units;
    rewrite Hv; (split; [|split]); try discriminate;
    try (intros e' _ job'; discriminate).
  - split; [auto|]. intros _. eauto.
  - split; [auto|]. intros _. eauto.
  - split; [|intros _; eauto].
    intros _. right. right. left. now apply Hlong.
  - split.
    + intros [msg Hmsg]. injection Hmsg as ->.
      unfold iterate_stocks in Hi.
      exfalso. now apply (iterate_stocks_of_raises _ _ _ Hi msg).
    + intros [H|[H|[H|[capacity [H _]]]]]; try contradiction.
      * apply Hlong in H. congruence.
      * rewrite Hi in H. discriminate.
  - split; [|intros _; eauto].
    intros _. right. right. right.
    exists (Py.sum (map NS.length units)). rewrite Hi. auto.
  - split.
    + intros [msg Hmsg]. discriminate.
    + intros [H|[H|[H|[capacity [H Hlt]]]]]; try contradiction.
      * apply Hlong in H. congruence.
      * rewrite Hi in H. simpl in H. injection H as <-. lia.
  - intros job' H. injection H as <-.
    repeat split; trivial.
    + intros H. apply Hlong in H. congruence.
    + exists (Py.sum (map NS.length units)). rewrite Hi. auto.
Qed.

(** C10: the capacity the validator checks is summed over the units of
    the stock iterator alone, each as long as some demand item, so a job
    that asks for more than these units hold is rejected, whatever the
    stock items too short for every demand item would add. *)
Theorem capacity_counts_usable_stock_only (self : Job)
  (units : list NS.t) :
  iterate_stocks self = Ok units ->
  sum_of_required self > Py.sum (map NS.length units) ->
  available_capacity self = Ok (Py.sum (map NS.length units))
  /\ (forall unit, In unit units ->
        exists req, In req (required self)
                    /\ QNS.length req <= NS.length unit)
  /\ (forall n, In n (stocks self) ->
        (forall req, In req (required self) ->
                     INS.length n < QNS.length req) ->
        iterate_stocks_of self [n] = Ok [])
  /\ exists msg, assert_valid self = Raise (ValueError msg).
Proof.
  intros Hi Hcap. split; [|split; [|split]].
  - unfold available_capacity. now rewrite Hi.
  - unfold iterate_stocks in Hi. now apply (iterate_stocks_of_usable _ _ _ Hi).
  - intros n _ Hshort. simpl.
    apply too_short_iff in Hshort. now rewrite Hshort.
  - validation_cases self Hs Hr Ho Hi' Hc Hv e units';
      rewrite Hv; eauto.
    + rewrite Hi in Hi'. discriminate.
    + rewrite Hi in Hi'. injection Hi' as <-. lia.
Qed.

Lemma capacity_counts_usable_stock_only_witness :
  let job := mkJob 0
               [INS.mk 100 None (Some 1); INS.mk 5 None (Some 10)]
               [QNS.mk 50 None 3] in
  total_stock_length job = Ok 150
  /\ sum_of_required job = 150
  /\ available_capacity job = Ok 100
  /\ exists msg, assert_valid job = Raise (ValueError msg).
Proof.
  cbv zeta. split; [reflexivity|]. split; [reflexivity|].
  destruct (capacity_counts_usable_stock_only
              (mkJob 0 [INS.mk 100 None (Some 1); INS.mk 5 None (Some 10)]
                     [QNS.mk 50 None 3])
              [NS.mk (Some 0) 100 None])
    as [Hcap [_ [_ Hrej]]].
  - reflexivity.
  - vm_compute. reflexivity.
  - split; [exact Hcap | exact Hrej].
Defined.

(** ** The dispatcher and the three strategies *)

Section Dispatch.
Variable distinct_permutations_NS : list NS.t -> list (list NS.t).
Variable distinct_permutations_QNS : list QNS.t -> list (list QNS.t).
Variable sort_entries : list ResultEntry -> list ResultEntry.
Variable find_best_solution : list (list ResultEntry) -> list ResultEntry.

(** C9: on every job the three strategy procedures return the same
    layout (or fail, or keep running, alike): they run the same search
    over the same orderings. *)
Theorem strategies_agree (fuel : nat) (job : Job) :
  _solve_bruteforce distinct_permutations_NS distinct_permutations_QNS
                    sort_entries find_best_solution fuel job
  = _solve_FFD distinct_permutations_NS distinct_permutations_QNS
               sort_entries find_best_solution fuel job
  /\ _solve_FFD distinct_permutations_NS distinct_permutations_QNS
                sort_entries find_best_solution fuel job
     = _solve_gapfill distinct_permutations_NS distinct_permutations_QNS
                      sort_entries find_best_solution fuel job.
Proof.
  unfold _solve_bruteforce, _solve_FFD, _solve_gapfill.
  destruct (iterate_stocks job) as [units|e]; split; reflexivity.
Qed.

(** C7: [solve] tries the thresholds in order.  With [c] the combination
    count of the job: the exhaustive strategy when
    [c <= bruteforce_max_combinations]; otherwise the first heuristic when
    the demand unit count is at most [solver_n_max]; otherwise the second
    heuristic when it is at most [gapfill_max]; otherwise the
    input-too-large error, raised without running any strategy. *)
Theorem solve_selects_by_thresholds
  (bruteforce_max_combinations solver_n_max gapfill_max : Z)
  (fuel : nat) (job : Job) (c : number) :
  n_combinations job = Ok c ->
  let solve' :=
    solve distinct_permutations_NS distinct_permutations_QNS
          sort_entries find_best_solution
          bruteforce_max_combinations solver_n_max gapfill_max in
  (le_int c bruteforce_max_combinations = true ->
   solve' fuel job
   = package job bruteforce
       (_solve_bruteforce distinct_permutations_NS distinct_permutations_QNS
                          sort_entries find_best_solution fuel job))
  /\ (le_int c bruteforce_max_combinations = false ->
      n_entries job <= solver_n_max ->
      solve' fuel job
      = package job FFD
          (_solve_FFD distinct_permutations_NS distinct_permutations_QNS
                      sort_entries find_best_solution fuel job))
  /\ (le_int c bruteforce_max_combinations = false ->
      solver_n_max < n_entries job ->
      n_entries job <= gapfill_max ->
      solve' fuel job
      = package job gapfill
          (_solve_gapfill distinct_permutations_NS distinct_permutations_QNS
                          sort_entries find_best_solution fuel job))
  /\ (le_int c bruteforce_max_combinations = false ->
      solver_n_max < n_entries job ->
      gapfill_max < n_entries job ->
      forall fuel' : nat,
        solve' fuel' job = Returns (Raise (OverflowError "Input too large"))).
Proof.
  intros Hc. cbv zeta. unfold solve. rewrite Hc.
  repeat split.
  - intros ->. reflexivity.
  - intros -> Hn. apply Z.leb_le in Hn. now rewrite Hn.
  - intros -> Hn Hg. apply Z.leb_gt in Hn. apply Z.leb_le in Hg.
    now rewrite Hn, Hg.
  - intros -> Hn Hg fuel'. apply Z.leb_gt in Hn. apply Z.leb_gt in Hg.
    now rewrite Hn, Hg.
Qed.

End Dispatch.

Lemma solve_selects_by_thresholds_witness :
  let job := mkJob 0 [INS.mk 100 None (Some 1)] [QNS.mk 50 None 2] in
  let orderings_NS := fun l : list NS.t => [l] in
  let orderings_QNS := fun l : list QNS.t => [l] in
  let first := fun s : list (list ResultEntry) => hd [] s in
  let layout := [mkResultEntry (NS.mk (Some 0) 100 None) [50; 50] 0] in
  solve orderings_NS orderings_QNS (fun l => l) first 10 5 5 2 job
  = package job bruteforce (Returns (Ok layout))
  /\ solve orderings_NS orderings_QNS (fun l => l) first 0 5 5 2 job
     = package job FFD (Returns (Ok layout))
  /\ solve orderings_NS orderings_QNS (fun l => l) first 0 1 5 2 job
     = package job gapfill (Returns (Ok layout))
  /\ solve orderings_NS orderings_QNS (fun l => l) first 0 1 1 2 job
     = Returns (Raise (OverflowError "Input too large")).
Proof.
  cbv zeta.
  pose (job := mkJob 0 [INS.mk 100 None (Some 1)] [QNS.mk 50 None 2]).
  pose (thm := fun b n g =>
          solve_selects_by_thresholds
            (fun l : list NS.t => [l]) (fun l : list QNS.t => [l])
            (fun l => l) (fun s => hd [] s) b n g 2%nat job (Int 1) eq_refl).
  split; [|split; [|split]].
  - exact (proj1 (thm 10 5 5) eq_refl).
  - refine (proj1 (proj2 (thm 0 5 5)) eq_refl _). vm_compute. discriminate.
  - refine (proj1 (proj2 (proj2 (thm 0 1 5))) eq_refl _ _).
    + vm_compute. reflexivity.
    + vm_compute. discriminate.
  - refine (proj2 (proj2 (proj2 (thm 0 1 1))) eq_refl _ _ 2%nat);
      vm_compute; reflexivity.
Defined.

(** ** The combination counts *)

(** Above 100 units both counts are the infinite sentinel, returned
    before any factorial is taken. *)
Lemma n_combinations_required_saturates (self : Job) :
  100 < n_entries self -> n_combinations_required self = Ok inf.
Proof.
  intros H. unfold n_combinations_required, n_entries in *.
  rewrite Z.gtb_ltb. apply Z.ltb_lt in H. now rewrite H.
Qed.

Lemma n_combinations_stocks_saturates (self : Job) (units : list NS.t) :
  iterate_stocks self = Ok units ->
  100 < Z.of_nat (List.length units) ->
  n_combinations_stocks self = Ok inf.
Proof.
  intros Hi H. unfold n_combinations_stocks. rewrite Hi. simpl.
  rewrite Z.gtb_ltb. apply Z.ltb_lt in H. now rewrite H.
Qed.

(** C8 (the code departs from it): the count over the demand goes through
    a binary64 division, which 23 distinct demand units already make
    inexact (the code returns 25852016738884978212864 for 23!); the count
    over the stock divides the factorial of the number of yielded units by
    the factorials of the units of every stock item, skipped ones
    included, and returns 0 for a stock sequence of one unit. *)
Theorem combination_counts_not_exact :
  let job := mkJob 0 [INS.mk 1000 None (Some 1)]
               (map (fun l => QNS.mk l None 1)
                    [1; 2; 3; 4; 5; 6; 7; 8; 9; 10; 11; 12; 13; 14; 15; 16;
                     17; 18; 19; 20; 21; 22; 23]) in
  let job' := mkJob 0
                [INS.mk 100 None (Some 1); INS.mk 5 None (Some 3)]
                [QNS.mk 50 None 1] in
  (assert_valid job = Ok job
   /\ n_entries job = 23
   /\ n_combinations_required job = Ok (Int 25852016738884978212864)
   /\ multiset_permutations QNS_eq_dec (iterate_required job)
      = 25852016738884976640000)
  /\ (assert_valid job' = Ok job'
      /\ iterate_stocks job' = Ok [NS.mk (Some 0) 100 None]
      /\ n_combinations_stocks job' = Ok (Int 0)
      /\ multiset_permutations NS_eq_dec [NS.mk (Some 0) 100 None] = 1).
Proof.
  cbv zeta. repeat split; vm_compute; reflexivity.
Qed.

(** ** What the packer returns *)

Section Returned.
Variable cut_width : Z.

Lemma fill_tracks (required : Dict.t) (stock : NS.t) (size : QNS.t)
  (turns : nat) :
  forall s,
    simulation_tracks required s /\ counters_nonnegative (current_required s) ->
    let s' := fill cut_width turns stock size s in
    simulation_tracks required s' /\ counters_nonnegative (current_required s').
Proof.
  induction turns as [|turns IH]; intros s Hs; simpl; [exact Hs|].
  destruct (Dict.get (current_required s) size >? 0) eqn:Hpos; simpl;
    [|exact Hs].
  destruct (cut_sum s + QNS.length size + cut_width <=? NS.length stock);
    [|exact Hs].
  apply IH. destruct Hs as [Htrack Hnn].
  rewrite Z.gtb_ltb in Hpos. apply Z.ltb_lt in Hpos.
  split; intros k; simpl.
  - rewrite count_occ_app. simpl.
    destruct (QNS_eq_dec size k) as [<-|Hne].
    + rewrite get_set_same, Htrack. lia.
    + rewrite get_set_other by exact Hne. rewrite Htrack. lia.
  - destruct (QNS_eq_dec size k) as [<-|Hne].
    + rewrite get_set_same. lia.
    + rewrite get_set_other by exact Hne. apply Hnn.
Qed.

Lemma simulate_within (required : Dict.t) (stock : NS.t) :
  counters_nonnegative required ->
  forall k, Z.of_nat (count_occ QNS_eq_dec
                        (current_cuts (simulate cut_width required stock)) k)
            <= Dict.get required k.
Proof.
  intros Hnn.
  assert (H : simulation_tracks required (simulate cut_width required stock)
              /\ counters_nonnegative
                   (current_required (simulate cut_width required stock))).
  { unfold simulate.
    apply (fold_left_invariant
             (fun s => simulation_tracks required s
                       /\ counters_nonnegative (current_required s))).
    - intros s size Hs. now apply fill_tracks.
    - split; [intros k; simpl; lia|exact Hnn]. }
  destruct H as [Htrack Hnn']. intros k.
  specialize (Htrack k). specialize (Hnn' k). lia.
Qed.

Lemma pass_within (available : list NS.t) (required : Dict.t) :
  counters_nonnegative required ->
  choice_within required (pass cut_width available required).
Proof.
  intros Hnn. unfold pass.
  apply (fold_left_invariant (choice_within required)).
  - intros best stock Hbest. unfold consider.
    destruct (nonempty _ && lt_inf _ _); [|exact Hbest].
    intros k. simpl. now apply simulate_within.
  - intros k. simpl. apply Hnn.
Qed.

(** With no negative counter at the start, the loop ends with every
    counter at zero. *)
Lemma group_loop_ends_at_zero (available : list NS.t) (fuel : nat) :
  forall (required : Dict.t) (result : list ResultEntry)
         (required' : Dict.t) (result' : list ResultEntry),
    NoDup (Dict.keys required) ->
    counters_nonnegative required ->
    group_loop cut_width fuel available required result
    = Returns (required', result') ->
    forallb (fun quantity => quantity =? 0) (Dict.values required') = true.
Proof.
  induction fuel as [|fuel IH];
    intros required result required' result' Hnd Hnn; simpl;
    [discriminate|].
  destruct (existsb _ (Dict.values required)) eqn:Hleft.
  - pose proof (pass_cuts_are_keys cut_width available required) as Hkeys.
    pose proof (pass_within available required Hnn) as Hwithin.
    destruct (best_stock (pass cut_width available required));
      [|now apply IH].
    destruct (best_cuts (pass cut_width available required))
      as [|c chosen] eqn:Hcuts; [now apply IH|].
    apply IH.
    + now rewrite commit_keys.
    + intros k. rewrite commit_get. specialize (Hwithin k).
      rewrite Hcuts in Hwithin. lia.
  - intros H. injection H as <- <-.
    rewrite values_by_get in * by exact Hnd.
    apply forallb_forall. intros v Hv.
    apply in_map_iff in Hv. destruct Hv as [k [<- Hk]].
    apply Z.eqb_eq. specialize (Hnn k).
    destruct (Z.eq_dec (Dict.get required k) 0) as [E|E]; [exact E|].
    assert (Hex : existsb (fun quantity => quantity >? 0)
                          (map (Dict.get required) (Dict.keys required))
                  = true).
    { apply existsb_exists. exists (Dict.get required k).
      split; [now apply in_map|]. rewrite Z.gtb_ltb. apply Z.ltb_lt. lia. }
    congruence.
Qed.

(** *** The entries *)

Lemma fill_appends (stock : NS.t) (size : QNS.t) (turns : nat) :
  forall s, exists m : nat,
    current_cuts (fill cut_width turns stock size s)
    = current_cuts s ++ repeat size m.
Proof.
  induction turns as [|turns IH]; intros s; simpl.
  - exists 0%nat. simpl. now rewrite app_nil_r.
  - destruct ((Dict.get (current_required s) size >? 0) && _).
    + destruct (IH {| cut_sum := cut_sum s + (QNS.length size + cut_width);
                      current_cuts := current_cuts s ++ [size];
                      current_required :=
                        Dict.set size
                          (Dict.get (current_required s) size - 1)
                          (current_required s) |}) as [m Hm].
      exists (S m). rewrite Hm. simpl. now rewrite <- app_assoc.
    + exists 0%nat. simpl. now rewrite app_nil_r.
Qed.

Lemma descending_app_repeat (l : list Z) (x : Z) (m : nat) :
  descending l -> Forall (fun c => x <= c) l ->
  descending (l ++ repeat x m).
Proof.
  unfold descending.
  induction l as [|y l IH]; simpl; intros Hs Hx.
  - clear. induction m as [|m IHm]; simpl; constructor; [exact IHm|].
    apply Forall_forall. intros z Hz. apply repeat_spec in Hz. lia.
  - apply StronglySorted_inv in Hs. destruct Hs as [Hs Hy].
    inversion Hx as [|y' l' Hxy Hx']; subst.
    constructor; [now apply IH|].
    apply Forall_app. split; [exact Hy|].
    apply Forall_forall. intros z Hz. apply repeat_spec in Hz. lia.
Qed.

(** The keys are visited longest first, so the cuts of a simulation are
    in descending order of length. *)
Lemma visit_descending (stock : NS.t) (keys : list QNS.t) :
  StronglySorted (fun a b => QNS.length b <= QNS.length a) keys ->
  forall s,
    descending (map QNS.length (current_cuts s)) ->
    (forall c k, In c (current_cuts s) -> In k keys ->
                 QNS.length k <= QNS.length c) ->
    descending
      (map QNS.length
           (current_cuts
              (fold_left
                 (fun s size =>
                    fill cut_width
                         (Z.to_nat (Dict.get (current_required s) size))
                         stock size s)
                 keys s))).
Proof.
  induction keys as [|k keys IH]; intros Hs s Hd Hge; simpl; [exact Hd|].
  apply StronglySorted_inv in Hs. destruct Hs as [Hs Hk].
  destruct (fill_appends stock k
              (Z.to_nat (Dict.get (current_required s) k)) s) as [m Hm].
  apply IH; [exact Hs| |]; rewrite Hm.
  - rewrite map_app, map_repeat. apply descending_app_repeat; [exact Hd|].
    apply Forall_forall. intros z Hz. apply in_map_iff in Hz.
    destruct Hz as [c [<- Hc]]. apply (Hge c k Hc). now left.
  - intros c k' Hc Hk'. apply in_app_or in Hc. destruct Hc as [Hc|Hc].
    + apply (Hge c k' Hc). now right.
    + apply repeat_spec in Hc. subst c.
      rewrite Forall_forall in Hk. now apply Hk.
Qed.

Lemma StronglySorted_of_map {A : Type} (key : A -> Z) (l : list A) :
  descending (map key l) ->
  StronglySorted (fun a b => key b <= key a) l.
Proof.
  unfold descending. induction l as [|x l IH]; simpl; intros Hs;
    [constructor|].
  apply StronglySorted_inv in Hs. destruct Hs as [Hs Hx].
  constructor; [now apply IH|].
  apply Forall_forall. intros y Hy. rewrite Forall_forall in Hx.
  apply Hx. now apply in_map.
Qed.

Lemma simulate_descending (required : Dict.t) (stock : NS.t) :
  descending
    (map QNS.length (current_cuts (simulate cut_width required stock))).
Proof.
  unfold simulate. apply visit_descending.
  - apply StronglySorted_of_map. apply sorted_reverse_by_key_descending.
  - simpl. constructor.
  - simpl. intros c k [].
Qed.

Lemma consider_well_formed (available : list NS.t) (required : Dict.t)
  (best : choice) (stock : NS.t) :
  In stock available ->
  choice_well_formed cut_width available best ->
  choice_well_formed cut_width available
                     (consider cut_width required best stock).
Proof.
  intros Hstock Hbest. unfold consider.
  destruct (nonempty _ && lt_inf _ _); [|exact Hbest].
  split; simpl.
  - intros unit H. now injection H as <-.
  - apply simulate_descending.
Qed.

Lemma pass_well_formed (available : list NS.t) (required : Dict.t) :
  choice_well_formed cut_width available
                     (pass cut_width available required).
Proof.
  unfold pass.
  apply (fold_left_invariant_in (choice_well_formed cut_width available)).
  - intros best stock Hin. now apply consider_well_formed.
  - split; simpl; [discriminate|constructor].
Qed.

Lemma group_loop_well_formed (available : list NS.t) (fuel : nat) :
  forall (required : Dict.t) (result : list ResultEntry)
         (required' : Dict.t) (result' : list ResultEntry),
    Forall (entry_well_formed cut_width available) result ->
    group_loop cut_width fuel available required result
    = Returns (required', result') ->
    Forall (entry_well_formed cut_width available) result'.
Proof.
  induction fuel as [|fuel IH];
    intros required result required' result' Hres; simpl; [discriminate|].
  destruct (existsb _ (Dict.values required)).
  - pose proof (pass_fits cut_width available required) as Hfit.
    destruct (pass_well_formed available required) as [Hunit Hdesc].
    destruct (best_stock (pass cut_width available required))
      as [unit|] eqn:Hstock; [|now apply IH].
    destruct (best_cuts (pass cut_width available required))
      as [|c chosen] eqn:Hcuts; [now apply IH|].
    apply IH. apply Forall_app. split; [exact Hres|].
    constructor; [|constructor].
    unfold entry_well_formed, create_result_entry. simpl.
    split; [discriminate|]. split; [now apply Hunit|].
    split; [exact Hdesc|].
    unfold choice_fits in Hfit. rewrite Hcuts in Hfit.
    specialize (Hfit ltac:(discriminate) unit Hstock).
    unfold consumed in Hfit. simpl in Hfit.
    change (QNS.length c + cut_width
            :: map (fun c0 => c0 + cut_width) (map QNS.length chosen))
      with (map (fun c0 => c0 + cut_width) (map QNS.length (c :: chosen))).
    now rewrite map_map.
  - intros H. injection H as _ <-. exact Hres.
Qed.

End Returned.

Lemma of_sizes_nonnegative (sizes : list QNS.t) :
  (forall k, In k sizes -> 0 <= QNS.quantity k) ->
  counters_nonnegative (Dict.of_sizes sizes).
Proof.
  intros Hq k. destruct (of_sizes_spec sizes) as [_ [Hkeys Hget]].
  destruct (in_dec QNS_eq_dec k sizes) as [Hk|Hk].
  - rewrite (Hget k Hk). now apply Hq.
  - rewrite get_absent; [lia|]. now rewrite Hkeys.
Qed.

Lemma group_into_lengths_returns_layout (fuel : nat) (stocks : list NS.t)
  (sizes : list QNS.t) (cut_width : Z) (r : option (list ResultEntry)) :
  (forall k, In k sizes -> 0 <= QNS.quantity k) ->
  _group_into_lengths fuel stocks sizes cut_width = Returns r ->
  exists layout, r = Some layout.
Proof.
  intros Hq. unfold _group_into_lengths.
  destruct (group_loop cut_width fuel _ _ _) as [|[required' result]] eqn:E;
    [discriminate|].
  destruct (of_sizes_spec sizes) as [Hnd _].
  rewrite (group_loop_ends_at_zero _ _ _ _ _ _ _ Hnd
             (of_sizes_nonnegative sizes Hq) E).
  intros H. injection H as <-. eauto.
Qed.

(** X1: for an ordering whose items have no negative quantity, the packer
    never answers "no layout": when it returns, it returns a layout (its
    [return None] is reached only past a negative counter). *)
Theorem packer_returns_a_layout (fuel : nat) (stocks : list NS.t)
  (sizes : list QNS.t) (cut_width : Z) (r : option (list ResultEntry)) :
  (forall k, In k sizes -> 0 <= QNS.quantity k) ->
  _group_into_lengths fuel stocks sizes cut_width = Returns r ->
  exists layout, r = Some layout.
Proof. apply group_into_lengths_returns_layout. Qed.

Lemma packer_returns_a_layout_witness :
  exists layout,
    Some [mkResultEntry (NS.mk (Some 0) 100 None) [60; 30] 8] = Some layout.
Proof.
  apply (packer_returns_a_layout 2 [NS.mk (Some 0) 100 None]
           [QNS.mk 30 None 1; QNS.mk 60 None 1] 2).
  - intros k [<-|[<-|[]]]; simpl; lia.
  - reflexivity.
Defined.

(** X2: every entry of a layout the packer returns has at least one cut,
    sits on one of the stock units given, lists its cuts in descending
    order of length, and its cuts fit the unit even when each of them,
    the last included, is charged a kerf. *)
Theorem layout_entries_well_formed (fuel : nat) (stocks : list NS.t)
  (sizes : list QNS.t) (cut_width : Z) (layout : list ResultEntry) :
  _group_into_lengths fuel stocks sizes cut_width = Returns (Some layout) ->
  forall entry, In entry layout ->
    cuts entry <> []
    /\ In (stock entry) stocks
    /\ descending (cuts entry)
    /\ Py.sum (map (fun c => c + cut_width) (cuts entry))
       <= NS.length (stock entry).
Proof.
  unfold _group_into_lengths. intros Hrun.
  destruct (group_loop cut_width fuel _ _ _) as [|[required' result]] eqn:E;
    [discriminate|].
  destruct (forallb _ (Dict.values required')); [|discriminate].
  injection Hrun as <-.
  pose proof (group_loop_well_formed cut_width _ _ _ _ _ _
                (Forall_nil _) E) as Hall.
  rewrite Forall_forall in Hall. intros entry Hin.
  destruct (Hall entry Hin) as [H1 [H2 [H3 H4]]].
  repeat split; trivial.
  now apply (Permutation_in _ (sorted_reverse_permutation _ _)) in H2.
Qed.

Lemma layout_entries_well_formed_witness :
  let entry := mkResultEntry (NS.mk (Some 0) 100 None) [60; 30] 8 in
  cuts entry <> []
  /\ In (stock entry) [NS.mk (Some 0) 100 None]
  /\ descending (cuts entry)
  /\ Py.sum (map (fun c => c + 2) (cuts entry)) <= NS.length (stock entry).
Proof.
  apply (layout_entries_well_formed 2 [NS.mk (Some 0) 100 None]
           [QNS.mk 30 None 1; QNS.mk 60 None 1] 2
           [mkResultEntry (NS.mk (Some 0) 100 None) [60; 30] 8]).
  - reflexivity.
  - now left.
Defined.

(** ** When the packer returns *)

Section Stuck.
Variable cut_width : Z.
Variable k0 : QNS.t.

Lemma fill_avoids (stock : NS.t) (size : QNS.t) (turns : nat) :
  NS.length stock < QNS.length k0 + cut_width ->
  0 <= QNS.length size + cut_width ->
  forall s, simulation_avoids k0 s ->
            simulation_avoids k0 (fill cut_width turns stock size s).
Proof.
  intros Hnofit Hsize.
  induction turns as [|turns IH]; intros s Hs; simpl; [exact Hs|].
  destruct (Dict.get (current_required s) size >? 0); simpl; [|exact Hs].
  destruct (cut_sum s + QNS.length size + cut_width <=? NS.length stock)
    eqn:Hguard; [|exact Hs].
  apply IH. destruct Hs as [Hsum Hnot]. apply Z.leb_le in Hguard.
  split; simpl; [lia|].
  intros Hin. apply in_app_or in Hin. destruct Hin as [Hin|[->|[]]].
  - contradiction.
  - lia.
Qed.

Lemma simulate_avoids (required : Dict.t) (stock : NS.t) :
  NS.length stock < QNS.length k0 + cut_width ->
  (forall k, In k (Dict.keys required) -> 0 <= QNS.length k + cut_width) ->
  ~ In k0 (current_cuts (simulate cut_width required stock)).
Proof.
  intros Hnofit Hkeys.
  enough (H : simulation_avoids k0 (simulate cut_width required stock))
    by apply H.
  unfold simulate. apply fold_left_invariant_in.
  - intros s size Hin Hs. apply fill_avoids; trivial.
    apply Hkeys.
    now apply (Permutation_in _ (sorted_reverse_permutation _ _)) in Hin.
  - split; simpl; [lia|tauto].
Qed.

Lemma pass_avoids (available : list NS.t) (required : Dict.t) :
  (forall unit, In unit available ->
                NS.length unit < QNS.length k0 + cut_width) ->
  (forall k, In k (Dict.keys required) -> 0 <= QNS.length k + cut_width) ->
  ~ In k0 (best_cuts (pass cut_width available required)).
Proof.
  intros Hnofit Hkeys. unfold pass.
  apply (fold_left_invariant_in (fun best => ~ In k0 (best_cuts best))).
  - intros best stock Hin Hbest. unfold consider.
    destruct (nonempty _ && lt_inf _ _); [|exact Hbest].
    simpl. apply simulate_avoids; auto.
  - simpl. tauto.
Qed.

(** A key with demand left that fits no stock unit keeps its counter, and
    the loop its condition, for ever. *)
Lemma group_loop_never_returns (available : list NS.t) (fuel : nat) :
  (forall unit, In unit available ->
                NS.length unit < QNS.length k0 + cut_width) ->
  forall (required : Dict.t) (result : list ResultEntry),
    NoDup (Dict.keys required) ->
    In k0 (Dict.keys required) ->
    0 < Dict.get required k0 ->
    (forall k, In k (Dict.keys required) -> 0 <= QNS.length k + cut_width) ->
    group_loop cut_width fuel available required result = OutOfFuel.
Proof.
  intros Hnofit.
  induction fuel as [|fuel IH]; intros required result Hnd Hk0 Hpos Hkeys;
    simpl; [reflexivity|].
  assert (Hleft : existsb (fun quantity => quantity >? 0)
                          (Dict.values required) = true).
  { rewrite values_by_get by exact Hnd. apply existsb_exists.
    exists (Dict.get required k0). split; [now apply in_map|].
    rewrite Z.gtb_ltb. now apply Z.ltb_lt. }
  rewrite Hleft.
  pose proof (pass_avoids available required Hnofit Hkeys) as Havoid.
  pose proof (pass_cuts_are_keys cut_width available required) as Hin.
  destruct (best_stock (pass cut_width available required));
    [|now apply IH].
  destruct (best_cuts (pass cut_width available required))
    as [|c chosen] eqn:Hcuts; [now apply IH|].
  apply IH; rewrite ?commit_keys; trivial.
  rewrite commit_get.
  apply (count_occ_not_In QNS_eq_dec) in Havoid. rewrite Havoid. lia.
Qed.

End Stuck.

(** X3: with a non-negative kerf and non-negative lengths, the packer
    returns exactly when every demand item of positive quantity fits,
    with its kerf, some stock unit; when one of them fits none, the call
    does not return. *)
Theorem packer_returns_iff_demand_fits (stocks : list NS.t)
  (sizes : list QNS.t) (cut_width : Z) :
  0 <= cut_width ->
  (forall k, In k sizes -> 0 <= QNS.length k) ->
  ((exists fuel r,
      _group_into_lengths fuel stocks sizes cut_width = Returns r)
   <-> (forall k, In k sizes -> 0 < QNS.quantity k ->
                  exists unit, In unit stocks
                               /\ QNS.length k + cut_width
                                  <= NS.length unit)).
Proof.
  intros Hkerf Hlen. split.
  - intros [fuel [r Hrun]] k Hk Hq.
    destruct (existsb (fun unit => QNS.length k + cut_width
                                   <=? NS.length unit) stocks) eqn:Hex.
    + apply existsb_exists in Hex. destruct Hex as [unit [Hunit Hle]].
      exists unit. split; [exact Hunit|now apply Z.leb_le].
    + exfalso. unfold _group_into_lengths in Hrun.
      destruct (of_sizes_spec sizes) as [Hnd [Hkeys Hget]].
      rewrite (group_loop_never_returns cut_width k) in Hrun;
        [discriminate| | | | |].
      * intros unit Hunit.
        apply (Permutation_in _ (sorted_reverse_permutation _ _)) in Hunit.
        assert (H : (QNS.length k + cut_width <=? NS.length unit) = false).
        { destruct (_ <=? _) eqn:E; [|reflexivity].
          assert (existsb (fun unit => QNS.length k + cut_width
                                       <=? NS.length unit) stocks = true)
            by (apply existsb_exists; eauto).
          congruence. }
        now apply Z.leb_gt in H.
      * exact Hnd.
      * now apply Hkeys.
      * now rewrite (Hget k Hk).
      * intros k' Hk'. apply Hkeys in Hk'. specialize (Hlen k' Hk'). lia.
  - intros Hfit.
    destruct (packer_returns_when_demand_fits stocks sizes cut_width Hfit)
      as [r Hr].
    eauto.
Qed.

Lemma packer_returns_iff_demand_fits_witness :
  (exists fuel r,
     _group_into_lengths fuel [NS.mk (Some 0) 100 None]
                         [QNS.mk 30 None 1; QNS.mk 60 None 1] 2
     = Returns r)
  <-> (forall k, In k [QNS.mk 30 None 1; QNS.mk 60 None 1] ->
                 0 < QNS.quantity k ->
                 exists unit, In unit [NS.mk (Some 0) 100 None]
                              /\ QNS.length k + 2 <= NS.length unit).
Proof.
  apply (packer_returns_iff_demand_fits [NS.mk (Some 0) 100 None]
           [QNS.mk 30 None 1; QNS.mk 60 None 1] 2).
  - lia.
  - intros k [<-|[<-|[]]]; simpl; lia.
Defined.

(** ** The expansions of a job *)

Lemma iterate_required_items (self : Job) (target : QNS.t) :
  In target (iterate_required self) ->
  In target (required self) /\ 0 < QNS.quantity target.
Proof.
  intros Hin. rewrite iterate_required_in_job_order in Hin.
  apply in_flat_map in Hin. destruct Hin as [t [Ht Hr]].
  pose proof (repeat_spec _ _ _ Hr) as ->.
  split; [exact Ht|].
  destruct (Z.to_nat (QNS.quantity t)) eqn:E; [destruct Hr|lia].
Qed.

(** X5: [iterate_required] yields the demand items in the order the job
    lists them (the comparison of the items never holds, so sorting moves
    nothing), each as many times as its quantity says and not at all for a
    quantity of zero or less. *)
Theorem iterate_required_expands_in_job_order (self : Job) :
  iterate_required self
  = flat_map (fun target => repeat target (Z.to_nat (QNS.quantity target)))
             (required self)
  /\ (forall target, In target (iterate_required self) ->
        In target (required self) /\ 0 < QNS.quantity target).
Proof.
  split; [apply iterate_required_in_job_order|].
  apply iterate_required_items.
Qed.

Lemma iterate_stocks_of_stated (self : Job) (targets : list INS.t) :
  (forall n, In n targets ->
             exists q, INS.quantity n = Some q /\ q <> 0) ->
  iterate_stocks_of self targets
  = Ok (flat_map (fun n => if too_short self n then []
                           else repeat (INS.as_base n) (stated_units n))
                 targets).
Proof.
  induction targets as [|n targets IH]; intros Hq; simpl; [reflexivity|].
  rewrite IH by (intros n' Hn'; apply Hq; now right).
  destruct (too_short self n); [reflexivity|].
  destruct (Hq n (or_introl eq_refl)) as [q [Hsome Hne]].
  unfold units_of, stated_units. rewrite Hsome.
  apply Z.eqb_neq in Hne. rewrite Hne. reflexivity.
Qed.

(** X6: when every stock item states a quantity, [iterate_stocks] raises
    nothing and yields, in the order the job lists the items, each item
    that is not shorter than every demand item as many times as its
    quantity says, and the shorter ones not at all. *)
Theorem iterate_stocks_of_stated_quantities (self : Job) :
  (forall n, In n (stocks self) ->
             exists q, INS.quantity n = Some q /\ q <> 0) ->
  iterate_stocks self
  = Ok (flat_map (fun n => if too_short self n then []
                           else repeat (INS.as_base n) (stated_units n))
                 (stocks self)).
Proof.
  intros Hq. rewrite iterate_stocks_in_job_order.
  now apply iterate_stocks_of_stated.
Qed.

Lemma iterate_stocks_of_stated_quantities_witness :
  iterate_stocks (mkJob 0 [INS.mk 5 None (Some 4); INS.mk 100 None (Some 2)]
                        [QNS.mk 50 None 1])
  = Ok [NS.mk (Some 0) 100 None; NS.mk (Some 0) 100 None].
Proof.
  apply (iterate_stocks_of_stated_quantities
           (mkJob 0 [INS.mk 5 None (Some 4); INS.mk 100 None (Some 2)]
                  [QNS.mk 50 None 1])).
  intros n [<-|[<-|[]]]; simpl; eexists; (split; [reflexivity|lia]).
Defined.

Lemma length_expansion (l : list QNS.t) :
  (forall target, In target l -> 0 <= QNS.quantity target) ->
  Z.of_nat (List.length
              (flat_map (fun target =>
                           repeat target (Z.to_nat (QNS.quantity target))) l))
  = Py.sum (map QNS.quantity l).
Proof.
  induction l as [|t l IH]; intros Hq; simpl; [reflexivity|].
  rewrite length_app, repeat_length, Nat2Z.inj_add, sum_cons, IH.
  - specialize (Hq t (or_introl eq_refl)). lia.
  - intros t' Ht'. apply Hq. now right.
Qed.

Lemma sum_repeat (x : Z) (n : nat) : Py.sum (repeat x n) = Z.of_nat n * x.
Proof.
  induction n as [|n IH]; [reflexivity|].
  cbn [repeat]. rewrite sum_cons, IH. lia.
Qed.

Lemma material_expansion (cut_width : Z) (l : list QNS.t) :
  (forall target, In target l -> 0 <= QNS.quantity target) ->
  Py.sum (map (fun unit => QNS.length unit + cut_width)
              (flat_map (fun target =>
                           repeat target (Z.to_nat (QNS.quantity target))) l))
  = Py.sum (map (fun target =>
                   (QNS.length target + cut_width) * QNS.quantity target) l).
Proof.
  induction l as [|t l IH]; intros Hq; simpl; [reflexivity|].
  rewrite map_app, sum_app, sum_cons, IH, map_repeat, sum_repeat.
  - rewrite Z2Nat.id by (apply Hq; now left). ring.
  - intros t' Ht'. apply Hq. now right.
Qed.

(** X7: for a job without negative quantities the expanded demand has
    [n_entries] units, and the lengths of its units, each with one kerf,
    add up to [sum_of_required]. *)
Theorem expansion_matches_the_totals (self : Job) :
  (forall target, In target (required self) -> 0 <= QNS.quantity target) ->
  Z.of_nat (List.length (iterate_required self)) = n_entries self
  /\ Py.sum (map (fun unit => QNS.length unit + cut_width self)
                 (iterate_required self))
     = sum_of_required self.
Proof.
  intros Hq. rewrite iterate_required_in_job_order.
  split; [now apply length_expansion|now apply material_expansion].
Qed.

Lemma expansion_matches_the_totals_witness :
  let job := mkJob 3 [INS.mk 100 None (Some 1)]
                   [QNS.mk 20 None 2; QNS.mk 10 None 0; QNS.mk 30 None 1] in
  Z.of_nat (List.length (iterate_required job)) = n_entries job
  /\ Py.sum (map (fun unit => QNS.length unit + cut_width job)
                 (iterate_required job))
     = sum_of_required job.
Proof.
  apply (expansion_matches_the_totals
           (mkJob 3 [INS.mk 100 None (Some 1)]
                  [QNS.mk 20 None 2; QNS.mk 10 None 0; QNS.mk 30 None 1])).
  intros target [<-|[<-|[<-|[]]]]; simpl; lia.
Defined.

(** X8: [sum_of_required] is the net length of the demand plus one kerf
    for each of its [n_entries] units. *)
Theorem sum_of_required_charges_a_kerf_per_unit (self : Job) :
  sum_of_required self = net_required self + cut_width self * n_entries self.
Proof.
  unfold sum_of_required, net_required, n_entries.
  induction (required self) as [|t l IH]; simpl;
    [unfold Py.sum; simpl; lia|].
  rewrite !sum_cons, IH. lia.
Qed.

(** ** The combination counts and the gate of the exhaustive strategy *)

Lemma fact_positive (n : nat) : 0 < fact n.
Proof. induction n as [|n IH]; [reflexivity|]. cbn [fact]. lia. Qed.

Lemma prod_from (l : list Z) (a : Z) : fold_left Z.mul l a = a * Py.prod l.
Proof.
  unfold Py.prod. revert a.
  induction l as [|x l IH]; intros a; cbn [fold_left]; [lia|].
  rewrite (IH (a * x)), (IH (1 * x)). ring.
Qed.

Lemma prod_positive (l : list Z) : Forall (fun x => 0 < x) l -> 0 < Py.prod l.
Proof.
  induction 1 as [|x l Hx Hl IH]; [reflexivity|].
  unfold Py.prod. cbn [fold_left]. rewrite prod_from. lia.
Qed.

Lemma mapM_factorial_positive {A : Type} (f : A -> result Z) (l : list A) :
  (forall x k, f x = Ok k -> 0 < k) ->
  forall ks, mapM f l = Ok ks -> Forall (fun k => 0 < k) ks.
Proof.
  intros Hf. induction l as [|x l IH]; simpl; intros ks H.
  - injection H as <-. constructor.
  - destruct (f x) as [k|] eqn:Hk; simpl in H; [|discriminate].
    destruct (mapM f l) as [ks'|]; simpl in H; [|discriminate].
    injection H as <-. constructor; eauto.
Qed.

Lemma factorial_positive (n k : Z) : factorial n = Ok k -> 0 < k.
Proof.
  unfold factorial. destruct (n <? 0); [discriminate|].
  intros H. injection H as <-. apply fact_positive.
Qed.





(** *** Signs *)

Lemma binary_round_aux_sign (s : bool) (mx ex : Z) (lx : location) :
  sign_is s (binary_round_aux prec emax s mx ex lx).
Proof.
  unfold binary_round_aux.
  destruct (shr_fexp prec emax mx ex lx) as [mrs' e'].
  destruct (shr_fexp prec emax _ e' loc_Exact) as [mrs'' e''].
  destruct (shr_m mrs''); simpl; trivial.
  destruct (_ <=? _); simpl; reflexivity.
Qed.

Lemma int_nonnegative (x : spec_float) (c : Z) :
  sign_is false x -> int x = Ok c -> 0 <= c.
Proof.
  destruct x as [s|s| |s m e]; cbn [int sign_is]; intros Hs H;
    try discriminate.
  - injection H as <-. lia.
  - assert (Hv : 0 <= (if 0 <=? e then Z.pos m * 2 ^ e
                       else Z.pos m / 2 ^ (- e))).
    { destruct (0 <=? e) eqn:He.
      - apply Z.mul_nonneg_nonneg; [lia|]. apply Z.pow_nonneg. lia.
      - apply Z.leb_gt in He.
        apply Z.div_pos; [lia|]. apply Z.pow_pos_nonneg; lia. }
    subst s. injection H as <-. exact Hv.
Qed.

Lemma truediv_sign (a b : Z) (x : spec_float) :
  0 < a -> 0 < b -> truediv a b = Ok x -> sign_is false x.
Proof.
  intros Ha Hb. unfold truediv.
  destruct (b =? 0); [discriminate|].
  destruct a as [|p|p]; try lia. destruct b as [|q|q]; try lia.
  simpl float_of_int. unfold SFdiv.
  destruct (SFdiv_core_binary prec emax (Z.pos p) 0 (Z.pos q) 0)
    as [[mz ez] lz].
  pose proof (binary_round_aux_sign (xorb false false) mz ez lz) as Hs.
  destruct (binary_round_aux prec emax (xorb false false) mz ez lz);
    intros H; try discriminate; injection H as <-; exact Hs.
Qed.

Lemma quotient_count (num den : Z) (x : number) :
  0 < num -> 0 < den ->
  (q <- truediv num den ;; c <- int q ;; Ok (Int c)) = Ok x ->
  count_or_inf x.
Proof.
  intros Hn Hd. destruct (truediv num den) as [q|] eqn:Hq; simpl;
    [|discriminate].
  destruct (int q) as [c|] eqn:Hc; simpl; [|discriminate].
  intros H. injection H as <-. right. exists c. split; [reflexivity|].
  apply (int_nonnegative q); [|exact Hc].
  now apply (truediv_sign num den).
Qed.

Lemma n_combinations_required_count (self : Job) (x : number) :
  n_combinations_required self = Ok x -> count_or_inf x.
Proof.
  unfold n_combinations_required.
  destruct (Py.sum (map QNS.quantity (required self)) >? 100).
  - intros H. injection H as <-. now left.
  - destruct (factorial _) as [num|] eqn:Hnum; simpl; [|discriminate].
    destruct (mapM _ (required self)) as [dens|] eqn:Hdens; simpl;
      [|discriminate].
    apply quotient_count.
    + now apply factorial_positive in Hnum.
    + apply prod_positive.
      apply (mapM_factorial_positive _ _ (fun n k => factorial_positive _ k)
               _ Hdens).
Qed.

Lemma n_combinations_stocks_count (self : Job) (x : number) :
  n_combinations_stocks self = Ok x -> count_or_inf x.
Proof.
  unfold n_combinations_stocks.
  destruct (iterate_stocks self) as [units|]; simpl; [|discriminate].
  destruct (Z.of_nat (List.length units) >? 100).
  - intros H. injection H as <-. now left.
  - destruct (factorial _) as [num|] eqn:Hnum; simpl; [|discriminate].
    destruct (mapM _ (stocks self)) as [dens|] eqn:Hdens; simpl;
      [|discriminate].
    apply quotient_count.
    + now apply factorial_positive in Hnum.
    + apply prod_positive.
      apply (mapM_factorial_positive _ _) with (2 := Hdens).
      intros n k. destruct (units_of self n); simpl; [|discriminate].
      apply factorial_positive.
Qed.

Lemma to_float_sign (c : Z) (f : spec_float) :
  0 <= c -> to_float c = Ok f ->
  f = S754_zero false \/ exists m e, f = S754_finite false m e.
Proof.
  intros Hc. unfold to_float, binary_normalize.
  destruct c as [|p|p]; try lia.
  - intros H. injection H as <-. now left.
  - unfold binary_round.
    destruct (shl_align p 0 _) as [mz ez].
    pose proof (binary_round_aux_sign false (Z.pos mz) ez loc_Exact) as Hs.
    destruct (binary_round_aux prec emax false (Z.pos mz) ez loc_Exact)
      as [s|s| |s m e]; intros H; try discriminate; injection H as <-;
      simpl in Hs; subst s; eauto.
Qed.

(** Against the infinite sentinel the product is infinite or NaN, and is
    at most no integer. *)
Lemma product_with_inf (x y z : number) (t : Z) :
  count_or_inf x -> count_or_inf y -> x = inf \/ y = inf ->
  Py.mul x y = Ok z -> le_int z t = false.
Proof.
  intros Hx Hy Hinf.
  assert (Hmix : forall c f,
             0 <= c -> to_float c = Ok f ->
             le_int (Float (SFmul prec emax f (S754_infinity false))) t
             = false
             /\ le_int (Float (SFmul prec emax (S754_infinity false) f)) t
                = false).
  { intros c f Hc Hf.
    destruct (to_float_sign c f Hc Hf) as [->|[m [e ->]]]; split;
      reflexivity. }
  destruct Hx as [->|[a [-> Ha]]]; destruct Hy as [->|[b [-> Hb]]].
  - intros H. injection H as <-. reflexivity.
  - simpl. destruct (to_float b) as [g|] eqn:Hg; simpl; [|discriminate].
    intros H. injection H as <-. now apply (Hmix b g).
  - simpl. destruct (to_float a) as [f|] eqn:Hf; simpl; [|discriminate].
    intros H. injection H as <-. now apply (Hmix a f).
  - destruct Hinf; discriminate.
Qed.

(** X10: when the demand has more than 100 units, or the stock expands to
    more than 100 units, no threshold admits the exhaustive strategy: a
    result of [solve] is tagged [FFD] or [gapfill], never [bruteforce]. *)
Theorem large_jobs_are_never_brute_forced
  (distinct_permutations_NS : list NS.t -> list (list NS.t))
  (distinct_permutations_QNS : list QNS.t -> list (list QNS.t))
  (sort_entries : list ResultEntry -> list ResultEntry)
  (find_best_solution : list (list ResultEntry) -> list ResultEntry)
  (bruteforce_max_combinations solver_n_max gapfill_max : Z)
  (fuel : nat) (self : Job) (r : Result) :
  100 < n_entries self
  \/ (exists units, iterate_stocks self = Ok units
                    /\ 100 < Z.of_nat (List.length units)) ->
  solve distinct_permutations_NS distinct_permutations_QNS sort_entries
        find_best_solution bruteforce_max_combinations solver_n_max
        gapfill_max fuel self
  = Returns (Ok r) ->
  solver_type r = FFD \/ solver_type r = gapfill.
Proof.
  intros Hlarge. unfold solve, n_combinations.
  destruct (n_combinations_required self) as [x|] eqn:Hx; simpl;
    [|discriminate].
  destruct (n_combinations_stocks self) as [y|] eqn:Hy; simpl;
    [|discriminate].
  destruct (Py.mul x y) as [z|] eqn:Hz; [|discriminate].
  assert (Hinf : x = inf \/ y = inf).
  { destruct Hlarge as [Hn|[units [Hi Hn]]].
    - left. rewrite (n_combinations_required_saturates self Hn) in Hx.
      now injection Hx.
    - right. rewrite (n_combinations_stocks_saturates self units Hi Hn) in Hy.
      now injection Hy. }
  rewrite (product_with_inf x y z _ (n_combinations_required_count _ _ Hx)
             (n_combinations_stocks_count _ _ Hy) Hinf Hz).
  unfold package.
  destruct (n_entries self <=? solver_n_max).
  - destruct (_solve_FFD _ _ _ _ fuel self) as [|[layout|]];
      try discriminate. intros H. injection H as <-. now left.
  - destruct (n_entries self <=? gapfill_max); [|discriminate].
    destruct (_solve_gapfill _ _ _ _ fuel self) as [|[layout|]];
      try discriminate. intros H. injection H as <-. now right.
Qed.

(** ** The search over the orderings *)

Section Search.
Variable sort_entries : list ResultEntry -> list ResultEntry.
Variable fuel : nat.
Variable cut_width : Z.

(** The two nested loops visit the pairs of orderings row by row. *)
Lemma search_all_by_pairs (stock_orderings : list (list NS.t))
  (required_orderings : list (list QNS.t)) (st : outcome search) :
  fold_left
    (fun st stock_ordering =>
       fold_left (evaluate sort_entries fuel cut_width stock_ordering)
                 required_orderings st)
    stock_orderings st
  = fold_left
      (fun st pair =>
         evaluate sort_entries fuel cut_width (fst pair) st (snd pair))
      (list_prod stock_orderings required_orderings) st.
Proof.
  revert st. induction stock_orderings as [|so sos IH]; intros st; simpl;
    [reflexivity|].
  rewrite fold_left_app, IH. f_equal.
  clear. revert st.
  induction required_orderings as [|ro ros IH]; intros st; simpl;
    [reflexivity|apply IH].
Qed.

Lemma evaluate_out_of_fuel (pairs : list (list NS.t * list QNS.t)) :
  fold_left
    (fun st pair =>
       evaluate sort_entries fuel cut_width (fst pair) st (snd pair))
    pairs OutOfFuel
  = OutOfFuel.
Proof. induction pairs as [|p pairs IH]; simpl; [reflexivity|exact IH]. Qed.

Lemma candidate_snoc (pairs : list (list NS.t * list QNS.t))
  (so : list NS.t) (ro : list QNS.t) (found : list ResultEntry) :
  candidate fuel cut_width (pairs ++ [(so, ro)]) found
  <-> candidate fuel cut_width pairs found
      \/ _group_into_lengths fuel so ro cut_width = Returns (Some found).
Proof.
  unfold candidate. split.
  - intros [so' [ro' [Hin Hrun]]]. apply in_app_or in Hin.
    destruct Hin as [Hin|[Heq|[]]]; [left; eauto|].
    injection Heq as <- <-. now right.
  - intros [[so' [ro' [Hin Hrun]]]|Hrun].
    + exists so', ro'. split; [apply in_or_app; now left|exact Hrun].
    + exists so, ro. split; [apply in_or_app; right; now left|exact Hrun].
Qed.

Lemma set_add_spec (x : list ResultEntry) (s : list (list ResultEntry)) :
  NoDup s ->
  NoDup (set_add x s) /\ forall y, In y (set_add x s) <-> In y s \/ y = x.
Proof.
  intros Hnd. unfold set_add.
  destruct (in_dec layout_eq_dec x s) as [Hin|Hnot].
  - split; [exact Hnd|]. intros y. split; [now left|].
    intros [H| ->]; assumption.
  - split.
    + apply NoDup_app; trivial.
      * constructor; [intros []|constructor].
      * intros y Hy [<-|[]]. contradiction.
    + intros y. rewrite in_app_iff. simpl. intuition.
Qed.

(** One evaluation keeps the state of the search sound. *)
Lemma evaluate_sound (pairs : list (list NS.t * list QNS.t))
  (so : list NS.t) (ro : list QNS.t) (s s' : search) :
  search_sound sort_entries fuel cut_width pairs s ->
  evaluate sort_entries fuel cut_width so (Returns s) ro = Returns s' ->
  search_sound sort_entries fuel cut_width (pairs ++ [(so, ro)]) s'.
Proof.
  intros [Hnd Hs]. unfold evaluate.
  destruct (_group_into_lengths fuel so ro cut_width) as [|[result|]] eqn:Hrun;
    [discriminate| |].
  - fold (total_trimming result).
    destruct (minimal_trimmings s) as [least|] eqn:Hmin; simpl.
    + destruct Hs as [Hleast [Hreach Hkept]].
      destruct (total_trimming result <? least) eqn:Hlt.
      * intros H. injection H as <-. apply Z.ltb_lt in Hlt.
        split; simpl; [constructor; [intros []|constructor]|].
        split; [|split].
        -- intros found Hc. apply candidate_snoc in Hc.
           destruct Hc as [Hc|Hc]; [specialize (Hleast found Hc); lia|].
           rewrite Hrun in Hc. injection Hc as <-. lia.
        -- exists result. split; [|reflexivity].
           apply candidate_snoc. now right.
        -- intros kept. split.
           ++ intros [<-|[]]. exists result.
              split; [apply candidate_snoc; now right|auto].
           ++ intros [found [Hc [Ht ->]]]. left.
              apply candidate_snoc in Hc. destruct Hc as [Hc|Hc].
              ** specialize (Hleast found Hc). lia.
              ** rewrite Hrun in Hc. now injection Hc as <-.
      * apply Z.ltb_ge in Hlt.
        destruct (total_trimming result =? least) eqn:Heq.
        -- intros H. injection H as <-. apply Z.eqb_eq in Heq.
           destruct (set_add_spec (sort_entries result) _ Hnd)
             as [Hnd' Hin'].
           split; simpl; [exact Hnd'|]. rewrite ?Hmin.
           split; [|split].
           ++ intros found Hc. apply candidate_snoc in Hc.
              destruct Hc as [Hc|Hc]; [now apply Hleast|].
              rewrite Hrun in Hc. injection Hc as <-. lia.
           ++ exists result. split; [|exact Heq].
              apply candidate_snoc. now right.
           ++ intros kept. rewrite Hin', Hkept. split.
              ** intros [[found [Hc [Ht ->]]]| ->].
                 --- exists found. split; [|auto].
                     apply candidate_snoc. now left.
                 --- exists result. split; [|auto].
                     apply candidate_snoc. now right.
              ** intros [found [Hc [Ht ->]]].
                 apply candidate_snoc in Hc. destruct Hc as [Hc|Hc].
                 --- left. eauto.
                 --- right. rewrite Hrun in Hc. now injection Hc as <-.
        -- intros H. injection H as <-. apply Z.eqb_neq in Heq.
           split; [exact Hnd|]. rewrite Hmin.
           split; [|split].
           ++ intros found Hc. apply candidate_snoc in Hc.
              destruct Hc as [Hc|Hc]; [now apply Hleast|].
              rewrite Hrun in Hc. injection Hc as <-. lia.
           ++ destruct Hreach as [found [Hc Ht]]. exists found.
              split; [|exact Ht]. apply candidate_snoc. now left.
           ++ intros kept. rewrite Hkept. split.
              ** intros [found [Hc [Ht ->]]]. exists found.
                 split; [|auto]. apply candidate_snoc. now left.
              ** intros [found [Hc [Ht ->]]].
                 apply candidate_snoc in Hc. destruct Hc as [Hc|Hc];
                   [eauto|].
                 rewrite Hrun in Hc. injection Hc as <-. lia.
    + destruct Hs as [Hbest Hnone].
      intros H. injection H as <-.
      split; simpl; [constructor; [intros []|constructor]|].
      split; [|split].
      * intros found Hc. apply candidate_snoc in Hc.
        destruct Hc as [Hc|Hc]; [now apply Hnone in Hc|].
        rewrite Hrun in Hc. injection Hc as <-. lia.
      * exists result. split; [|reflexivity].
        apply candidate_snoc. now right.
      * intros kept. split.
        -- intros [<-|[]]. exists result.
           split; [apply candidate_snoc; now right|auto].
        -- intros [found [Hc [Ht ->]]]. left.
           apply candidate_snoc in Hc. destruct Hc as [Hc|Hc];
             [now apply Hnone in Hc|].
           rewrite Hrun in Hc. now injection Hc as <-.
  - intros H. injection H as <-. split; [exact Hnd|].
    destruct (minimal_trimmings s) as [least|].
    + destruct Hs as [Hleast [Hreach Hkept]]. split; [|split].
      * intros found Hc. apply candidate_snoc in Hc.
        destruct Hc as [Hc|Hc]; [now apply Hleast|].
        rewrite Hrun in Hc. discriminate.
      * destruct Hreach as [found [Hc Ht]]. exists found.
        split; [|exact Ht]. apply candidate_snoc. now left.
      * intros kept. rewrite Hkept. split.
        -- intros [found [Hc [Ht ->]]]. exists found.
           split; [|auto]. apply candidate_snoc. now left.
        -- intros [found [Hc [Ht ->]]].
           apply candidate_snoc in Hc. destruct Hc as [Hc|Hc]; [eauto|].
           rewrite Hrun in Hc. discriminate.
    + destruct Hs as [Hbest Hnone]. split; [exact Hbest|].
      intros found Hc. apply candidate_snoc in Hc.
      destruct Hc as [Hc|Hc]; [now apply Hnone in Hc|].
      rewrite Hrun in Hc. discriminate.
Qed.

Lemma fold_evaluate_sound (todo : list (list NS.t * list QNS.t)) :
  forall (seen : list (list NS.t * list QNS.t)) (s s' : search),
    search_sound sort_entries fuel cut_width seen s ->
    fold_left
      (fun st pair =>
         evaluate sort_entries fuel cut_width (fst pair) st (snd pair))
      todo (Returns s)
    = Returns s' ->
    search_sound sort_entries fuel cut_width (seen ++ todo) s'.
Proof.
  induction todo as [|[so ro] todo IH]; intros seen s s' Hs;
    cbn [fold_left fst snd].
  - intros H. injection H as <-. now rewrite app_nil_r.
  - destruct (evaluate sort_entries fuel cut_width so (Returns s) ro)
      as [|s1] eqn:Hstep.
    + rewrite evaluate_out_of_fuel. discriminate.
    + intros Hrest.
      replace (seen ++ (so, ro) :: todo) with ((seen ++ [(so, ro)]) ++ todo)
        by (now rewrite <- app_assoc).
      apply (IH _ s1); [|exact Hrest].
      now apply (evaluate_sound seen so ro s).
Qed.

Lemma search_all_sound (stock_orderings : list (list NS.t))
  (required_orderings : list (list QNS.t)) (s : search) :
  search_all sort_entries fuel cut_width stock_orderings required_orderings
  = Returns s ->
  search_sound sort_entries fuel cut_width
               (list_prod stock_orderings required_orderings) s.
Proof.
  unfold search_all. rewrite search_all_by_pairs. intros Hrun.
  apply (fold_evaluate_sound _ [] _ s) in Hrun; [exact Hrun|].
  split; simpl; [constructor|]. split; [reflexivity|].
  intros found [so [ro [[] _]]].
Qed.

End Search.

Lemma search_all_summary
  (sort_entries : list ResultEntry -> list ResultEntry)
  (fuel : nat) (cut_width : Z) (stock_orderings : list (list NS.t))
  (required_orderings : list (list QNS.t)) (s : search) :
  search_all sort_entries fuel cut_width stock_orderings required_orderings
  = Returns s ->
  let pairs := list_prod stock_orderings required_orderings in
  NoDup (best_results s)
  /\ (best_results s = []
      <-> forall found, ~ candidate fuel cut_width pairs found)
  /\ (forall least,
        minimal_trimmings s = Some least ->
        (forall found, candidate fuel cut_width pairs found ->
                       least <= total_trimming found)
        /\ (forall kept,
              In kept (best_results s)
              <-> exists found,
                    candidate fuel cut_width pairs found
                    /\ total_trimming found = least
                    /\ kept = sort_entries found)).
Proof.
  intros Hrun. cbv zeta.
  destruct (search_all_sound _ _ _ _ _ _ Hrun) as [Hnd Hs].
  split; [exact Hnd|].
  destruct (minimal_trimmings s) as [least|].
  - destruct Hs as [Hleast [[found [Hc Ht]] Hkept]]. split.
    + split.
      * intros Hnil. exfalso.
        assert (Hin : In (sort_entries found) (best_results s))
          by (apply Hkept; eauto).
        rewrite Hnil in Hin. destruct Hin.
      * intros Hnone. now apply Hnone in Hc.
    + intros least' H. injection H as <-. now split.
  - destruct Hs as [Hbest Hnone]. split; [tauto|discriminate].
Qed.



(** ** A strategy as a whole *)

Section Strategy.
Variable distinct_permutations_NS : list NS.t -> list (list NS.t).
Variable distinct_permutations_QNS : list QNS.t -> list (list QNS.t).
Variable sort_entries : list ResultEntry -> list ResultEntry.
Variable find_best_solution : list (list ResultEntry) -> list ResultEntry.

(** X12: when [_solve_bruteforce] comes back on a job whose stock
    expands, it fails its assertion exactly when the packer returned a
    layout on no pair of orderings; otherwise it returns what
    [find_best_solution] picks from a non-empty set of sorted layouts of
    least total trimming. *)
Theorem strategy_result (fuel : nat) (job : Job) (units : list NS.t)
  (res : result (list ResultEntry)) :
  iterate_stocks job = Ok units ->
  _solve_bruteforce distinct_permutations_NS distinct_permutations_QNS
                    sort_entries find_best_solution fuel job
  = Returns res ->
  let pairs := list_prod (distinct_permutations_NS units)
                         (distinct_permutations_QNS (iterate_required job))
  in
  (res = Raise (AssertionError "No valid solution found")
   <-> forall found, ~ candidate fuel (cut_width job) pairs found)
  /\ (forall layout,
        res = Ok layout ->
        exists kept_set,
          kept_set <> []
          /\ layout = find_best_solution kept_set
          /\ forall kept,
               In kept kept_set ->
               exists found,
                 candidate fuel (cut_width job) pairs found
                 /\ kept = sort_entries found
                 /\ forall other,
                      candidate fuel (cut_width job) pairs other ->
                      total_trimming found <= total_trimming other).
Proof.
  intros Hi. unfold _solve_bruteforce. rewrite Hi. cbv zeta.
  destruct (search_all _ _ _ _ _) as [|s] eqn:Hrun; simpl; [discriminate|].
  destruct (search_all_summary _ _ _ _ _ _ Hrun)
    as [_ [Hempty Hleast]].
  destruct (search_all_sound _ _ _ _ _ _ Hrun) as [_ Hs].
  destruct (best_results s) as [|kept0 kept_set] eqn:Hbest; simpl;
    intros H; injection H as <-.
  - split; [|discriminate]. split; [intros _; now apply Hempty|reflexivity].
  - split.
    + split; [discriminate|]. intros Hnone. apply Hempty in Hnone.
      discriminate.
    + intros layout H. injection H as <-.
      exists (kept0 :: kept_set). split; [discriminate|].
      split; [reflexivity|]. intros kept Hin.
      destruct (minimal_trimmings s) as [least|].
      * destruct (Hleast least eq_refl) as [Hmin Hkept].
        apply Hkept in Hin. destruct Hin as [found [Hc [Ht ->]]].
        exists found. split; [exact Hc|]. split; [reflexivity|].
        intros other Ho. rewrite Ht. now apply Hmin.
      * destruct Hs as [Hnil _]. discriminate.
Qed.

Hypothesis orderings_NS :
  forall l, distinct_permutations_NS l <> []
            /\ forall o, In o (distinct_permutations_NS l) -> Permutation o l.
Hypothesis orderings_QNS :
  forall l, distinct_permutations_QNS l <> []
            /\ forall o, In o (distinct_permutations_QNS l) -> Permutation o l.

Lemma uniform_fuel (cut_width : Z)
  (pairs : list (list NS.t * list QNS.t)) :
  (forall so ro, In (so, ro) pairs ->
                 exists fuel found,
                   _group_into_lengths fuel so ro cut_width
                   = Returns (Some found)) ->
  exists fuel,
    forall so ro, In (so, ro) pairs ->
                  exists found,
                    _group_into_lengths fuel so ro cut_width
                    = Returns (Some found).
Proof.
  induction pairs as [|[so ro] pairs IH]; intros Hall.
  - exists 0%nat. intros so ro [].
  - destruct IH as [f1 Hf1]; [intros; apply Hall; now right|].
    destruct (Hall so ro (or_introl eq_refl)) as [f2 [found Hf2]].
    exists (f1 + f2)%nat. intros so' ro' [Heq|Hin].
    + injection Heq as <- <-. exists found.
      rewrite Nat.add_comm. now apply group_into_lengths_more_fuel.
    + destruct (Hf1 so' ro' Hin) as [found' Hf]. exists found'.
      now apply group_into_lengths_more_fuel.
Qed.

Lemma fold_evaluate_returns (fuel : nat) (cut_width : Z)
  (pairs : list (list NS.t * list QNS.t)) :
  (forall so ro, In (so, ro) pairs ->
                 exists found,
                   _group_into_lengths fuel so ro cut_width
                   = Returns (Some found)) ->
  forall s, exists s',
    fold_left
      (fun st pair =>
         evaluate sort_entries fuel cut_width (fst pair) st (snd pair))
      pairs (Returns s)
    = Returns s'.
Proof.
  induction pairs as [|[so ro] pairs IH]; intros Hall s;
    cbn [fold_left fst snd]; [eauto|].
  destruct (Hall so ro (or_introl eq_refl)) as [found Hrun].
  unfold evaluate at 2. rewrite Hrun.
  destruct (lt_inf _ _); [|destruct (eq_inf _ _)];
    (apply IH; intros; apply Hall; now right).
Qed.

(** X13: with orderings that are permutations of what they order, and at
    least one of each, a strategy finds a layout on every job whose stock
    expands and whose demand items each fit, with the kerf, some stock
    unit: given enough fuel it returns, and does not fail its
    assertion. *)
Theorem strategy_finds_a_layout (job : Job) (units : list NS.t) :
  iterate_stocks job = Ok units ->
  (forall target, In target (required job) -> 0 < QNS.quantity target ->
                  exists unit, In unit units
                               /\ QNS.length target + cut_width job
                                  <= NS.length unit) ->
  exists fuel layout,
    _solve_bruteforce distinct_permutations_NS distinct_permutations_QNS
                      sort_entries find_best_solution fuel job
    = Returns (Ok layout).
Proof.
  intros Hi Hfit.
  pose proof (proj1 (orderings_NS units)) as Hsos.
  pose proof (proj1 (orderings_QNS (iterate_required job))) as Hros.
  unfold _solve_bruteforce. rewrite Hi. cbv zeta.
  remember (distinct_permutations_NS units) as sos eqn:Esos.
  remember (distinct_permutations_QNS (iterate_required job)) as ros
    eqn:Eros.
  pose proof (iterate_required_items job) as Hitems.
  assert (Hall : forall so ro, In (so, ro) (list_prod sos ros) ->
                   exists fuel found,
                     _group_into_lengths fuel so ro (cut_width job)
                     = Returns (Some found)).
  { intros so ro Hin. apply in_prod_iff in Hin. destruct Hin as [Hso Hro].
    rewrite Esos in Hso. rewrite Eros in Hro.
    apply (proj2 (orderings_NS units)) in Hso.
    apply (proj2 (orderings_QNS (iterate_required job))) in Hro.
    destruct (packer_returns_when_demand_fits so ro (cut_width job))
      as [r Hr].
    - intros k Hk Hq. apply (Permutation_in _ Hro) in Hk.
      destruct (Hitems k Hk) as [Hreq _].
      destruct (Hfit k Hreq Hq) as [unit [Hunit Hle]].
      exists unit. split; [|exact Hle].
      now apply (Permutation_in _ (Permutation_sym Hso)).
    - destruct (group_into_lengths_returns_layout _ _ _ _ _ ltac:(
                  intros k Hk; apply (Permutation_in _ Hro) in Hk;
                  destruct (Hitems k Hk); lia) Hr) as [found ->].
      eauto. }
  destruct (uniform_fuel _ _ Hall) as [fuel Hfuel].
  destruct (fold_evaluate_returns fuel (cut_width job) _ Hfuel
              {| minimal_trimmings := None; best_results := [] |})
    as [s Hs].
  assert (Hrun : search_all sort_entries fuel (cut_width job) sos ros
                 = Returns s).
  { unfold search_all. now rewrite search_all_by_pairs. }
  destruct (search_all_summary _ _ _ _ _ _ Hrun)
    as [_ [Hempty _]].
  exists fuel. rewrite Hrun. simpl.
  destruct (best_results s) as [|kept kept_set] eqn:Hbest; simpl; [|eauto].
  exfalso. clear Esos Eros.
  destruct sos as [|so sos']; [congruence|].
  destruct ros as [|ro ros']; [congruence|].
  assert (Hin : In (so, ro) (list_prod (so :: sos') (ro :: ros')))
    by (apply in_prod_iff; split; now left).
  destruct (Hfuel so ro Hin) as [found Hfound].
  apply (proj1 Hempty eq_refl found). exists so, ro. auto.
Qed.

End Strategy.

Lemma strategy_result_witness :
  let job := mkJob 0 [INS.mk 100 None (Some 1)] [QNS.mk 30 None 3] in
  let pairs := list_prod [[NS.mk (Some 0) 100 None]]
                         [iterate_required job] in
  let res := Ok [mkResultEntry (NS.mk (Some 0) 100 None) [30; 30; 30] 10] in
  (res = Raise (AssertionError "No valid solution found")
   <-> forall found, ~ candidate 2 (cut_width job) pairs found)
  /\ (forall layout,
        res = Ok layout ->
        exists kept_set,
          kept_set <> []
          /\ layout = hd [] kept_set
          /\ forall kept,
               In kept kept_set ->
               exists found,
                 candidate 2 (cut_width job) pairs found
                 /\ kept = found
                 /\ forall other,
                      candidate 2 (cut_width job) pairs other ->
                      total_trimming found <= total_trimming other).
Proof.
  apply (strategy_result (fun l => [l]) (fun l => [l]) (fun l => l)
           (fun s => hd [] s) 2
           (mkJob 0 [INS.mk 100 None (Some 1)] [QNS.mk 30 None 3])
           [NS.mk (Some 0) 100 None]).
  - reflexivity.
  - reflexivity.
Defined.

Lemma strategy_finds_a_layout_witness :
  exists fuel layout,
    _solve_bruteforce (fun l => [l]) (fun l => [l]) (fun l => l)
                      (fun s => hd [] s) fuel
                      (mkJob 2 [INS.mk 100 None (Some 1)]
                             [QNS.mk 30 None 3])
    = Returns (Ok layout).
Proof.
  apply (strategy_finds_a_layout (fun l => [l]) (fun l => [l]) (fun l => l)
           (fun s => hd [] s)) with (units := [NS.mk (Some 0) 100 None]).
  - intros l. split; [discriminate|]. intros o [<-|[]]. reflexivity.
  - intros l. split; [discriminate|]. intros o [<-|[]]. reflexivity.
  - reflexivity.
  - intros target [<-|[]] _. exists (NS.mk (Some 0) 100 None).
    split; [now left|]. simpl. lia.
Defined.

(** ** The request handler *)

Lemma assert_valid_returns_self (self job : Job) :
  assert_valid self = Ok job -> job = self.
Proof.
  validation_cases self Hs Hr Ho Hi Hc Hv e units; rewrite Hv;
    try discriminate.
  intros H. now injection H as <-.
Qed.

Lemma prepare_required_kept (rows : list required_row) :
  forall required_items,
    prepare_required (kept_rows rows) required_items
    = prepare_required rows required_items.
Proof.
  induction rows as [|row rows IH]; intros required_items; simpl;
    [reflexivity|].
  destruct (required_row_quantity row <=? 0) eqn:Hq.
  - apply Z.leb_le in Hq.
    assert (H : (0 <? required_row_quantity row) = false)
      by (apply Z.ltb_ge; lia).
    rewrite H. apply IH.
  - apply Z.leb_gt in Hq.
    assert (H : (0 <? required_row_quantity row) = true)
      by (now apply Z.ltb_lt).
    rewrite H. simpl.
    assert (H' : (required_row_quantity row <=? 0) = false)
      by (apply Z.leb_gt; lia).
    rewrite H'. destruct (QNS_init _ _ _); [reflexivity|apply IH].
Qed.

Lemma prepare_required_positive (rows : list required_row) :
  forall required_items items,
    Forall (fun req => 0 < QNS.quantity req /\ 0 < QNS.length req)
           required_items ->
    prepare_required rows required_items = inr items ->
    Forall (fun req => 0 < QNS.quantity req /\ 0 < QNS.length req) items.
Proof.
  induction rows as [|row rows IH]; intros required_items items Hpos; simpl.
  - intros H. now injection H as <-.
  - destruct (required_row_quantity row <=? 0) eqn:Hq; [now apply IH|].
    unfold QNS_init.
    destruct (required_row_length row <=? 0) eqn:Hl; [discriminate|].
    apply IH. apply Forall_app. split; [exact Hpos|].
    constructor; [|constructor]. simpl.
    apply Z.leb_gt in Hq. apply Z.leb_gt in Hl. lia.
Qed.

Lemma first_bad_quantity_none (required_items : list QNS.t) :
  Forall (fun req => 0 < QNS.quantity req /\ 0 < QNS.length req)
         required_items ->
  first_bad_quantity required_items = None.
Proof.
  induction 1 as [|req rest [Hq _] _ IH]; simpl; [reflexivity|].
  assert (H : (QNS.quantity req <=? 0) = false) by (apply Z.leb_gt; lia).
  now rewrite H.
Qed.

Lemma prepare_stocks_valid (rows : list stock_row) :
  forall stocks,
    prepare_stocks rows = inr stocks ->
    Forall (fun n => 0 < INS.length n
                     /\ forall q, INS.quantity n = Some q -> 0 < q) stocks.
Proof.
  induction rows as [|row rows IH]; intros stocks; simpl.
  - intros H. injection H as <-. constructor.
  - unfold INS_init.
    destruct (stock_row_length row <=? 0) eqn:Hl; [discriminate|].
    apply Z.leb_gt in Hl.
    destruct (stock_row_quantity row) as [q|].
    + destruct (q <=? 0) eqn:Hq; [discriminate|]. apply Z.leb_gt in Hq.
      destruct (prepare_stocks rows) as [|stocks']; [discriminate|].
      intros H. injection H as <-. constructor; [|now apply IH].
      simpl. split; [exact Hl|]. intros q' H. now injection H as <-.
    + destruct (prepare_stocks rows) as [|stocks']; [discriminate|].
      intros H. injection H as <-. constructor; [|now apply IH].
      simpl. split; [exact Hl|]. discriminate.
Qed.

Section HandlerProperties.
Variable distinct_permutations_NS : list NS.t -> list (list NS.t).
Variable distinct_permutations_QNS : list QNS.t -> list (list QNS.t).
Variable sort_entries : list ResultEntry -> list ResultEntry.
Variable find_best_solution : list (list ResultEntry) -> list ResultEntry.
Variables bruteforce_max_combinations solver_n_max gapfill_max : Z.

(** X14: the second check of the handler never fires: whatever the
    request, the handler keeps running, raises, or answers with a solved
    result; it never answers with the error dictionary for a non-positive
    quantity, since its first loop has kept only rows of positive
    quantity. *)
Theorem post_solve_never_reports_a_quantity (fuel : nat) (data : job_data) :
  let answer :=
    post_solve distinct_permutations_NS distinct_permutations_QNS
               sort_entries find_best_solution bruteforce_max_combinations
               solver_n_max gapfill_max fuel data in
  answer = OutOfFuel
  \/ (exists e, answer = Returns (inl e))
  \/ (exists solved, answer = Returns (inr (Solved solved))).
Proof.
  cbv zeta. unfold post_solve.
  destruct (prepare_stocks (data_stocks data)); [eauto|].
  destruct (prepare_required (data_required data) []) as [|items] eqn:Hitems;
    [eauto|].
  rewrite (first_bad_quantity_none items
             (prepare_required_positive _ _ _ (Forall_nil _) Hitems)).
  destruct (Job_init _ _ _); [eauto|].
  destruct (solve _ _ _ _ _ _ _ fuel _) as [|[solved|e]]; eauto.
Qed.

(** X15: the rows of ["required"] with a quantity of zero or less count
    for nothing, not even their lengths are looked at: the handler answers
    a request as it answers the request without these rows. *)
Theorem post_solve_ignores_dropped_rows (fuel : nat) (data : job_data) :
  post_solve distinct_permutations_NS distinct_permutations_QNS
             sort_entries find_best_solution bruteforce_max_combinations
             solver_n_max gapfill_max fuel data
  = post_solve distinct_permutations_NS distinct_permutations_QNS
               sort_entries find_best_solution bruteforce_max_combinations
               solver_n_max gapfill_max fuel
               (mkJobData (data_stocks data) (data_cut_width data)
                          (kept_rows (data_required data))).
Proof.
  unfold post_solve. simpl. now rewrite prepare_required_kept.
Qed.

(** X16: a request without stock rows, with a non-negative kerf and no
    kept row of a bad length, is answered with the validation error "Job
    has no stocks", whatever it requires; this covers the empty
    request. *)
Theorem post_solve_without_stocks (fuel : nat) (data : job_data) :
  data_stocks data = [] ->
  0 <= data_cut_width data ->
  (forall row, In row (data_required data) ->
               0 < required_row_quantity row -> 0 < required_row_length row) ->
  post_solve distinct_permutations_NS distinct_permutations_QNS
             sort_entries find_best_solution bruteforce_max_combinations
             solver_n_max gapfill_max fuel data
  = Returns (inl (ValidatorError "Job has no stocks")).
Proof.
  intros Hs Hcw Hrows. unfold post_solve. rewrite Hs. simpl.
  assert (Hitems : forall rows acc,
             (forall row, In row rows -> 0 < required_row_quantity row ->
                          0 < required_row_length row) ->
             exists items, prepare_required rows acc = inr items).
  { induction rows as [|row rows IH]; intros acc Hall; simpl; [eauto|].
    destruct (required_row_quantity row <=? 0) eqn:Hq.
    - apply IH. intros; apply Hall; auto. now right.
    - unfold QNS_init. apply Z.leb_gt in Hq.
      assert (H : (required_row_length row <=? 0) = false).
      { apply Z.leb_gt. apply Hall; [now left|exact Hq]. }
      rewrite H. apply IH. intros; apply Hall; auto. now right. }
  destruct (Hitems (data_required data) [] Hrows) as [items Hi].
  rewrite Hi.
  rewrite (first_bad_quantity_none items
             (prepare_required_positive _ _ _ (Forall_nil _) Hi)).
  unfold Job_init. apply Z.ltb_ge in Hcw. rewrite Hcw. reflexivity.
Qed.

End HandlerProperties.

(** X17: a job the handler hands to [solve] has passed [assert_valid],
    has a non-negative kerf, positive lengths throughout, stock
    quantities that are positive or absent, and demand quantities that are
    positive. *)
Theorem handler_jobs_are_well_formed (data : job_data) (job : Job) :
  handler_job data = Some job ->
  assert_valid job = Ok job
  /\ 0 <= cut_width job
  /\ Forall (fun n => 0 < INS.length n
                      /\ forall q, INS.quantity n = Some q -> 0 < q)
            (stocks job)
  /\ Forall (fun req => 0 < QNS.quantity req /\ 0 < QNS.length req)
            (required job).
Proof.
  unfold handler_job.
  destruct (prepare_stocks (data_stocks data)) as [|stocks'] eqn:Hs;
    [discriminate|].
  destruct (prepare_required (data_required data) []) as [|items] eqn:Hr;
    [discriminate|].
  destruct (first_bad_quantity items); [discriminate|].
  unfold Job_init.
  destruct (data_cut_width data <? 0) eqn:Hcw; [discriminate|].
  apply Z.ltb_ge in Hcw.
  destruct (assert_valid _) as [job'|e] eqn:Hv.
  - intros H. injection H as <-.
    pose proof (assert_valid_returns_self _ _ Hv) as ->.
    split; [exact Hv|]. split; [exact Hcw|]. split.
    + now apply (prepare_stocks_valid (data_stocks data)).
    + now apply (prepare_required_positive (data_required data) []).
  - destruct e; discriminate.
Qed.

Lemma handler_jobs_are_well_formed_witness :
  let job := mkJob 2 [INS.mk 100 None None]
                   [QNS.mk 30 (Some "a"%string) 3] in
  assert_valid job = Ok job
  /\ 0 <= cut_width job
  /\ Forall (fun n => 0 < INS.length n
                      /\ forall q, INS.quantity n = Some q -> 0 < q)
            (stocks job)
  /\ Forall (fun req => 0 < QNS.quantity req /\ 0 < QNS.length req)
            (required job).
Proof.
  apply (handler_jobs_are_well_formed
           (mkJobData [mkStockRow 100 None] 2
                      [mkRequiredRow 0 0 None;
                       mkRequiredRow 30 3 (Some "a"%string)])).
  reflexivity.
Defined.

Lemma large_jobs_are_never_brute_forced_witness :
  let job := mkJob 0 [INS.mk 1000 None (Some 1)] [QNS.mk 1 None 101] in
  let r := mkResult job FFD
             [mkResultEntry (NS.mk (Some 0) 1000 None) (repeat 1 101) 899] in
  solver_type r = FFD \/ solver_type r = gapfill.
Proof.
  apply (large_jobs_are_never_brute_forced
           (fun l => [l]) (fun l => [l]) (fun l => l) (fun s => hd [] s)
           1000000 500 1000 2
           (mkJob 0 [INS.mk 1000 None (Some 1)] [QNS.mk 1 None 101])).
  - left. vm_compute. reflexivity.
  - vm_compute. reflexivity.
Defined.

Lemma post_solve_without_stocks_witness :
  post_solve (fun l => [l]) (fun l => [l]) (fun l => l) (fun s => hd [] s)
             10 5 5 0
             (mkJobData [] 0 [mkRequiredRow 30 2 None; mkRequiredRow 0 0 None])
  = Returns (inl (ValidatorError "Job has no stocks")).
Proof.
  apply (post_solve_without_stocks
           (fun l => [l]) (fun l => [l]) (fun l => l) (fun s => hd [] s)
           10 5 5 0%nat
           (mkJobData [] 0 [mkRequiredRow 30 2 None; mkRequiredRow 0 0 None])).
  - reflexivity.
  - simpl. lia.
  - intros row [<-|[<-|[]]]; simpl; lia.
Defined.

Lemma distinct_demand_is_placed_exactly_witness :
  let job := mkJob 2 [INS.mk 100 None (Some 2)]
                   [QNS.mk 30 None 1; QNS.mk 60 None 2] in
  Permutation
    (cut_lengths [mkResultEntry (NS.mk (Some 0) 100 None) [60; 30] 8;
                  mkResultEntry (NS.mk (Some 0) 100 None) [60] 40])
    (map QNS.length (iterate_required job)).
Proof.
  apply (distinct_demand_is_placed_exactly
           (mkJob 2 [INS.mk 100 None (Some 2)]
                  [QNS.mk 30 None 1; QNS.mk 60 None 2])
           3 [NS.mk (Some 0) 100 None; NS.mk (Some 0) 100 None]
           [QNS.mk 60 None 2; QNS.mk 30 None 1; QNS.mk 60 None 2]).
  - simpl. constructor; [|constructor; [|constructor]].
    + intros [H|[]]. discriminate.
    + intros [].
  - simpl. apply perm_swap.
  - reflexivity.
Defined.
